(** * libconfig: the command-line option parser of [include/cfg.hpp]

    A shallow embedding of [cfg::config] (option entities, registry, parser
    engine and facade) together with the properties of its specification.

    Conventions of the embedding.
    - A [const char *] or [std::string_view] is the [string] of its
      characters; the terminating NUL is the end of the [string], so the
      test [*arg == 0] reads [arg = ""].
    - [argv] is the list of its [argc] slots.
    - An [option_base *] handed out by the registry is the index of the
      entity in [m_options]; a write through the pointer is a list update
      at that index.
    - [int m_seen] is a [Z]; signed overflow is undefined in C++ and is
      not modelled.
    - A [std::error_code &] parameter is threaded as an argument and a
      result. *)

From Stdlib Require Import ZArith Ascii String List Lia Bool.
From stdpp Require Import base decidable option list relations strings.

Local Open Scope string_scope.
Local Open Scope Z_scope.

(** ** Error codes *)

(** [enum class config_error]. *)
Inductive config_error :=
  | unknown_option
  | option_does_not_accept_argument
  | missing_argument_for_option
  | option_not_specified.

(** The values of [std::errc] that [<charconv>] reports. *)
Inductive errc :=
  | invalid_argument
  | result_out_of_range
  | value_too_large.

(** [std::error_code]: the default-constructed code, a code of the
    configuration category, or a code of the generic category. *)
Inductive error_code :=
  | no_error
  | config_code (e : config_error)
  | generic_code (e : errc).

Definition make_error_code (e : config_error) : error_code := config_code e.

(** [explicit operator bool] of [std::error_code]. *)
Definition is_error (ec : error_code) : bool :=
  match ec with
  | no_error => false
  | _ => true
  end.

(** [config_category_impl::message]. *)
Definition message (e : config_error) : string :=
  match e with
  | unknown_option => "unknown option"
  | option_does_not_accept_argument => "option does not accept argument"
  | missing_argument_for_option => "missing argument for option"
  | option_not_specified => "option was not specified"
  end.

(** What a call can do besides returning: throw [std::system_error],
    throw [std::bad_any_cast], or have no defined behaviour at all
    (dereferencing an empty [std::optional]). *)
Inductive outcome (A : Type) :=
  | returns (a : A)
  | throws_system_error (ec : error_code) (what : string)
  | throws_bad_any_cast
  | undefined_behaviour.
Arguments returns {A} a.
Arguments throws_system_error {A} ec what.
Arguments throws_bad_any_cast {A}.
Arguments undefined_behaviour {A}.

(** ** Value types *)

(** An integer type [T] with [std::is_arithmetic_v<T>]: its name, which
    tells it from every other type ([long] and [long long] are two types
    also where both have 64 bits), its signedness and its width in bits.
    Floating-point instantiations are outside the embedding. *)
Record int_type := { type_name : string; is_signed : bool; width : Z }.

Definition numeric_min (ty : int_type) : Z :=
  if is_signed ty then - 2 ^ (width ty - 1) else 0.
Definition numeric_max (ty : int_type) : Z :=
  if is_signed ty then 2 ^ (width ty - 1) - 1 else 2 ^ width ty - 1.

Definition t_int : int_type :=
  {| type_name := "int"; is_signed := true; width := 32 |}.
Definition t_unsigned : int_type :=
  {| type_name := "unsigned int"; is_signed := false; width := 32 |}.
Definition t_int64 : int_type :=
  {| type_name := "long"; is_signed := true; width := 64 |}.
Definition t_uint64 : int_type :=
  {| type_name := "unsigned long"; is_signed := false; width := 64 |}.
Definition t_long_long : int_type :=
  {| type_name := "long long"; is_signed := true; width := 64 |}.

(** [option_traits<T>::value_type]: the three families of traits. *)
Inductive value_type :=
  | vt_arith (ty : int_type)
  | vt_path
  | vt_string.

(** A value of one of the value types. *)
Inductive value :=
  | v_arith (z : Z)
  | v_path (p : string)
  | v_string (s : string).

(** [std::any]: empty, or a value together with its type. *)
Inductive any :=
  | any_empty
  | any_of (vt : value_type) (v : value).

(** The type [T] of a [get<T>], up to [const] and references: one of the
    value types, or a type that no option stores ([const char *],
    [std::string_view], ...), given by its name. *)
Inductive requested_type :=
  | stored_as (vt : value_type)
  | not_stored (name : string).
Coercion stored_as : value_type >-> requested_type.

Global Instance config_error_eq_dec : EqDecision config_error.
Proof. solve_decision. Defined.
Global Instance errc_eq_dec : EqDecision errc.
Proof. solve_decision. Defined.
Global Instance error_code_eq_dec : EqDecision error_code.
Proof. solve_decision. Defined.
Global Instance int_type_eq_dec : EqDecision int_type.
Proof. solve_decision. Defined.
Global Instance value_type_eq_dec : EqDecision value_type.
Proof. solve_decision. Defined.
Global Instance value_eq_dec : EqDecision value.
Proof. solve_decision. Defined.
Global Instance requested_type_eq_dec : EqDecision requested_type.
Proof. solve_decision. Defined.

(** ** Text *)

(** The text after a leading dash: the test [*arg == '-'] followed by
    [++arg]. *)
Definition after_dash (arg : string) : option string :=
  match arg with
  | String c arg' => if bool_decide (c = "-"%char) then Some arg' else None
  | EmptyString => None
  end.

(** ** Decimal text of integers ([cfg/utilities.hpp], not in the sources) *)

Definition is_digit (c : ascii) : bool :=
  (48 <=? Z.of_nat (nat_of_ascii c)) && (Z.of_nat (nat_of_ascii c) <=? 57).

Definition digit_value (c : ascii) : Z := Z.of_nat (nat_of_ascii c) - 48.

Definition digit_char (d : Z) : ascii := ascii_of_nat (Z.to_nat (d + 48)).

(** The longest prefix of decimal digits, as digit values. *)
Fixpoint take_digits (s : string) : list Z :=
  match s with
  | String c s' => if is_digit c then digit_value c :: take_digits s' else []
  | EmptyString => []
  end.

(** The number a digit sequence denotes, most significant digit first. *)
Definition decimal_value (ds : list Z) : Z :=
  fold_left (fun acc d => acc * 10 + d) ds 0.

(** Modelled from the spec: [charconv<T>::from_chars] of
    [cfg/utilities.hpp] is missing from the sources.  The spec asks for a
    "locale-independent, exact numeric text conversion" where "a malformed
    or out-of-range token fails with a conversion error"; this is
    [std::from_chars] in base 10: an optional minus sign (signed types
    only), then the longest run of digits; no digit is
    [invalid_argument], a number outside the type is
    [result_out_of_range], and on failure [value] is left as it was.
    The result is the [ec] member and the content of [value] afterwards. *)
Definition from_chars (ty : int_type) (s : string) (value : Z)
  : option errc * Z :=
  let '(negative, body) :=
    match after_dash s with
    | Some s' => if is_signed ty then (true, s') else (false, s)
    | None => (false, s)
    end in
  match take_digits body with
  | [] => (Some invalid_argument, value)
  | ds =>
      let v := if negative then - decimal_value ds else decimal_value ds in
      if (numeric_min ty <=? v) && (v <=? numeric_max ty)
      then (None, v)
      else (Some result_out_of_range, value)
  end.

(** The decimal digits of a non-negative number, most significant first,
    by repeated division; [fuel] bounds the number of digits. *)
Fixpoint digits_fuel (fuel : nat) (n : Z) : string :=
  match fuel with
  | O => ""
  | S fuel' =>
      if n <? 10 then String (digit_char n) ""
      else digits_fuel fuel' (n / 10) ++ String (digit_char (n mod 10)) ""
  end.

(** A number has no more decimal digits than binary ones. *)
Definition digits_of (n : Z) : string :=
  digits_fuel (S (Z.to_nat (Z.log2 n))) n.

(** Modelled from the spec: [charconv<T>::to_chars] of
    [cfg/utilities.hpp] is missing from the sources.  The spec asks that
    "formatting renders the canonical decimal text representation"; this
    is [std::to_chars]: a minus sign for a negative number, then its
    digits without leading zeros, or [value_too_large] when the text does
    not fit the [capacity] characters of the buffer. *)
Definition to_chars (capacity : nat) (value : Z) : option errc * string :=
  let text :=
    if value <? 0 then String "-" (digits_of (- value)) else digits_of value in
  if (String.length text <=? capacity)%nat
  then (None, text)
  else (Some value_too_large, "").

(** *** Valid tokens and their canonical form, in the words of the spec *)

Fixpoint all_digits (s : string) : bool :=
  match s with
  | String c s' => is_digit c && all_digits s'
  | EmptyString => true
  end.

(** One or more digits and nothing else. *)
Definition digit_string (s : string) : bool :=
  negb (bool_decide (s = "")) && all_digits s.

(** The number a token denotes. *)
Definition token_value (s : string) : Z :=
  match after_dash s with
  | Some body => - decimal_value (take_digits body)
  | None => decimal_value (take_digits s)
  end.

(** A valid numeric token of an integer type: digits, behind a minus sign
    if the type is signed, denoting a number of the type. *)
Definition valid_numeric_token (ty : int_type) (s : string) : bool :=
  match after_dash s with
  | Some body => is_signed ty && digit_string body
  | None => digit_string s
  end
  && (numeric_min ty <=? token_value s) && (token_value s <=? numeric_max ty).

(** Dropping the redundant leading zeros of a digit string. *)
Fixpoint strip_zeros (s : string) : string :=
  match s with
  | String c (String _ _ as s') =>
      if bool_decide (c = "0"%char) then strip_zeros s' else s
  | _ => s
  end.

(** The canonical form of a token: no redundant leading zero, and no sign
    on zero. *)
Definition canonical_form (s : string) : string :=
  match after_dash s with
  | Some body =>
      if bool_decide (strip_zeros body = "0") then "0"
      else String "-" (strip_zeros body)
  | None => strip_zeros s
  end.

(** A token without a redundant leading zero or sign: its first digit is
    not [0], unless the token is [0] itself. *)
Definition no_redundancy (s : string) : bool :=
  match after_dash s with
  | Some (String c _) => negb (bool_decide (c = "0"%char))
  | Some EmptyString => true
  | None =>
      match s with
      | String c (String _ _) => negb (bool_decide (c = "0"%char))
      | _ => true
      end
  end.

Section Config.

(** The content of an uninitialised local of arithmetic type.  C++ leaves
    it indeterminate; every result below holds whatever it is. *)
Variable indeterminate : Z.

(** ** Type Conversion Layer: [config::option_traits] *)

(** [option_traits<T>::set_value]: the converted value and the error code
    afterwards.  The arithmetic traits declare [value_type value;] without
    an initialiser, hand it to [from_chars] and return it whatever
    [from_chars] answered. *)
Definition traits_set_value (vt : value_type) (argument : string)
    (ec : error_code) : value * error_code :=
  match vt with
  | vt_arith ty =>
      let value := indeterminate in
      let '(r_ec, value) := from_chars ty argument value in
      let ec := match r_ec with
                | Some e => generic_code e
                | None => ec
                end in
      (v_arith value, ec)
  | vt_path => (v_path argument, ec)
  | vt_string => (v_string argument, ec)
  end.

(** [option_traits<T>::to_string]; the arithmetic traits format into
    [char b[32]] and throw when [to_chars] reports an error. *)
Definition traits_to_string (v : value) : outcome string :=
  match v with
  | v_arith z =>
      match to_chars 32 z with
      | (Some e, _) => throws_system_error (generic_code e) ""
      | (None, text) => returns text
      end
  | v_path p => returns p
  | v_string s => returns s
  end.

(** ** Option Entity: [config::option_base] and [config::option<T>] *)

Record option_base := mk_option_base {
  m_name : string;
  m_desc : string;
  m_short_name : ascii;
  m_is_flag : bool;
  m_has_default : bool;
  m_hidden : bool;
  m_seen : Z
}.

(** An object behind an [option_base *]: an [option<void>], which adds
    nothing to its base, or an [option<T>] with its
    [std::optional<value_type> m_value]. *)
Inductive option_object :=
  | option_void (b : option_base)
  | option_T (vt : value_type) (b : option_base) (m_value : option value).

Definition base (o : option_object) : option_base :=
  match o with
  | option_void b => b
  | option_T _ b _ => b
  end.

Definition with_base (f : option_base -> option_base) (o : option_object)
  : option_object :=
  match o with
  | option_void b => option_void (f b)
  | option_T vt b v => option_T vt (f b) v
  end.

(** The value slot; an [option<void>] has none. *)
Definition value_slot (o : option_object) : option value :=
  match o with
  | option_void _ => None
  | option_T _ _ v => v
  end.

(** [option_base::option_base(name, desc, hidden)], with the member
    initialisers [m_is_flag = true], [m_has_default = false],
    [m_seen = 0], and the splitting of the name. *)
Definition option_base_ctor (name desc : string) (hidden : bool)
  : option_base :=
  let len := String.length name in
  let '(m_name, m_short_name) :=
    if (len =? 1)%nat then
      (name, match name with String c _ => c | EmptyString => zero end)
    else if (2 <? len)%nat
            && bool_decide (String.get (len - 2) name = Some ","%char) then
      (substring 0 (len - 2) name,
       match String.get (len - 1) name with Some c => c | None => zero end)
    else (name, zero) in
  {| m_name := m_name; m_desc := desc; m_short_name := m_short_name;
     m_is_flag := true; m_has_default := false; m_hidden := hidden;
     m_seen := 0 |}.

Definition set_is_flag (f : bool) (b : option_base) : option_base :=
  {| m_name := m_name b; m_desc := m_desc b; m_short_name := m_short_name b;
     m_is_flag := f; m_has_default := m_has_default b;
     m_hidden := m_hidden b; m_seen := m_seen b |}.

Definition set_has_default (d : bool) (b : option_base) : option_base :=
  {| m_name := m_name b; m_desc := m_desc b; m_short_name := m_short_name b;
     m_is_flag := m_is_flag b; m_has_default := d;
     m_hidden := m_hidden b; m_seen := m_seen b |}.

(** [++opt->m_seen]. *)
Definition incr_seen (b : option_base) : option_base :=
  {| m_name := m_name b; m_desc := m_desc b; m_short_name := m_short_name b;
     m_is_flag := m_is_flag b; m_has_default := m_has_default b;
     m_hidden := m_hidden b; m_seen := m_seen b + 1 |}.

(** [option<void>::option(name, desc, hidden)]. *)
Definition option_void_ctor (name desc : string) (hidden : bool)
  : option_object :=
  option_void (option_base_ctor name desc hidden).

(** [option<T>::option(name, desc, hidden)]. *)
Definition option_ctor (vt : value_type) (name desc : string) (hidden : bool)
  : option_object :=
  option_T vt (set_is_flag false (option_base_ctor name desc hidden)) None.

(** [option<T>::option(name, default_value, desc, hidden)]. *)
Definition option_ctor_default (vt : value_type) (name : string)
    (default_value : value) (desc : string) (hidden : bool) : option_object :=
  option_T vt
    (set_has_default true
       (set_is_flag false (option_base_ctor name desc hidden)))
    (Some default_value).

(** [make_option] and [make_hidden_option]: [T = void] by default. *)
Definition make_option (T : option value_type) (name description : string)
  : option_object :=
  match T with
  | None => option_void_ctor name description false
  | Some vt => option_ctor vt name description false
  end.

Definition make_hidden_option (T : option value_type)
    (name description : string) : option_object :=
  match T with
  | None => option_void_ctor name description true
  | Some vt => option_ctor vt name description true
  end.

Definition make_option_default (vt : value_type) (name : string) (v : value)
    (description : string) : option_object :=
  option_ctor_default vt name v description false.

Definition make_hidden_option_default (vt : value_type) (name : string)
    (v : value) (description : string) : option_object :=
  option_ctor_default vt name v description true.

(** The virtual [set_value].  [option_base::set_value] is [assert(false)]
    and changes nothing; [option<T>::set_value] assigns to [m_value]
    whatever the traits return. *)
Definition set_value (o : option_object) (argument : string)
    (ec : error_code) : option_object * error_code :=
  match o with
  | option_void b => (option_void b, ec)
  | option_T vt b _ =>
      let '(v, ec) := traits_set_value vt argument ec in
      (option_T vt b (Some v), ec)
  end.

(** The virtual [get_value]. *)
Definition get_value (o : option_object) : any :=
  match o with
  | option_void _ => any_empty
  | option_T vt _ m_value =>
      match m_value with
      | Some v => any_of vt v
      | None => any_empty
      end
  end.

(** The virtual [get_default_value].  [option<T>] applies [*m_value]
    without a test; on an empty optional that has no defined behaviour. *)
Definition get_default_value (o : option_object) : outcome string :=
  match o with
  | option_void _ => returns ""
  | option_T _ _ m_value =>
      match m_value with
      | Some v => traits_to_string v
      | None => undefined_behaviour
      end
  end.

(** The virtual [clone]: a copy. *)
Definition clone (o : option_object) : option_object := o.

(** ** Option Registry: [config::config_impl] *)

Record config_impl := mk_config_impl {
  m_options : list option_object;
  m_operands : list string
}.

(** [config_impl::config_impl(options...)]. *)
Definition config_impl_ctor (options : list option_object) : config_impl :=
  {| m_options := map clone options; m_operands := [] |}.

(** [config::init]. *)
Definition init (options : list option_object) : config_impl :=
  config_impl_ctor options.

(** [config_impl::get_option(std::string_view)]: the first entity of that
    name, as its index and the object there. *)
Definition get_option (impl : config_impl) (name : string)
  : option (nat * option_object) :=
  list_find (fun o => m_name (base o) = name) (m_options impl).

(** [config_impl::get_option(char)]. *)
Definition get_option_short (impl : config_impl) (short_name : ascii)
  : option (nat * option_object) :=
  list_find (fun o => m_short_name (base o) = short_name) (m_options impl).

(** A write through the pointer [p]. *)
Definition store (impl : config_impl) (p : nat) (o : option_object)
  : config_impl :=
  {| m_options := <[p := o]> (m_options impl);
     m_operands := m_operands impl |}.

(** [m_operands.emplace_back(arg)]. *)
Definition emplace_operand (impl : config_impl) (arg : string)
  : config_impl :=
  {| m_options := m_options impl;
     m_operands := m_operands impl ++ [arg] |}.

(** ** Parser Engine: [config::parse] *)

Inductive State := options | operands.

(** How the part of the loop body that matches an option ends: with
    [continue], or at the argument resolution with the matched entity
    [opt] (behind the pointer [p]) and [opt_arg]. *)
Inductive scan_result :=
  | scan_continue (impl : config_impl) (ec : error_code)
  | scan_argument (impl : config_impl) (ec : error_code)
      (p : nat) (opt : option_object) (opt_arg : string).

(** The branch of a second dash: [arg] is the text after the two
    dashes. *)
Definition long_option (ignore_unknown : bool) (arg : string)
    (impl : config_impl) (ec : error_code) : scan_result :=
  let s_arg := arg in
  let '(s_arg, opt_arg) :=
    match index 0 "=" s_arg with
    | Some p =>
        (substring 0 p s_arg,
         substring (p + 1) (String.length s_arg - (p + 1)) s_arg)
    | None => (s_arg, "")
    end in
  match get_option impl s_arg with
  | None =>
      scan_continue impl
        (if ignore_unknown then ec else make_error_code unknown_option)
  | Some (p, opt) =>
      if m_is_flag (base opt) then
        let ec :=
          if bool_decide (opt_arg = "") then ec
          else make_error_code option_does_not_accept_argument in
        scan_continue (store impl p (with_base incr_seen opt)) ec
      else
        let opt := with_base incr_seen opt in
        scan_argument (store impl p opt) ec p opt opt_arg
  end.

(** The branch of single-character options, a loop while [arg] has a
    character left and [ec] is clear: [arg] is the text
    after the dash.  Leaving the loop without [break] leaves
    [expect_option_argument] false, hence [continue]. *)
Fixpoint short_options (ignore_unknown : bool) (arg : string)
    (impl : config_impl) (ec : error_code) : scan_result :=
  match arg with
  | EmptyString => scan_continue impl ec
  | String c arg' =>
      if is_error ec then scan_continue impl ec
      else
        match get_option_short impl c with
        | None =>
            short_options ignore_unknown arg' impl
              (if ignore_unknown then ec else make_error_code unknown_option)
        | Some (p, opt) =>
            let opt := with_base incr_seen opt in
            let impl := store impl p opt in
            if m_is_flag (base opt) then
              short_options ignore_unknown arg' impl ec
            else scan_argument impl ec p opt arg'
        end
  end.

(** The choice between the two branches after the first [++arg]: [arg] is
    the text after the first dash. *)
Definition scan_token (ignore_unknown : bool) (arg : string)
    (impl : config_impl) (ec : error_code) : scan_result :=
  match after_dash arg with
  | Some arg' => long_option ignore_unknown arg' impl ec
  | None => short_options ignore_unknown arg impl ec
  end.

(** The end of the loop body: a missing argument, or [opt->set_value]. *)
Definition assign_argument (impl : config_impl) (ec : error_code) (p : nat)
    (opt : option_object) (opt_arg : string) : config_impl * error_code :=
  if bool_decide (opt_arg = "") then
    (impl, make_error_code missing_argument_for_option)
  else
    let '(opt, ec) := set_value opt opt_arg ec in
    (store impl p opt, ec).

(** The loop [for (int i = 1; i < argc and not ec; ++i)], on the slots
    [argv[i..argc)] still to be read. *)
Fixpoint parse_loop (ignore_unknown : bool) (state : State)
    (args : list string) (impl : config_impl) (ec : error_code)
  : config_impl * error_code :=
  match args with
  | [] => (impl, ec)
  | arg :: rest =>
      if is_error ec then (impl, ec)
      else
        match state with
        | operands =>
            parse_loop ignore_unknown operands rest
              (emplace_operand impl arg) ec
        | options =>
            match after_dash arg with
            | None =>
                parse_loop ignore_unknown options rest
                  (emplace_operand impl arg) ec
            | Some arg1 =>
                if bool_decide (arg1 = "-") then
                  parse_loop ignore_unknown operands rest impl ec
                else
                  match scan_token ignore_unknown arg1 impl ec with
                  | scan_continue impl ec =>
                      parse_loop ignore_unknown options rest impl ec
                  | scan_argument impl ec p opt opt_arg =>
                      if bool_decide (opt_arg = "") then
                        match rest with
                        | next :: rest' =>
                            let '(impl, ec) :=
                              assign_argument impl ec p opt next in
                            parse_loop ignore_unknown options rest' impl ec
                        | [] => assign_argument impl ec p opt opt_arg
                        end
                      else
                        let '(impl, ec) :=
                          assign_argument impl ec p opt opt_arg in
                        parse_loop ignore_unknown options rest impl ec
                  end
            end
        end
  end.

(** [config::parse(argc, argv, ignore_unknown, ec)]: slot 0 is the
    program name. *)
Definition parse (impl : config_impl) (argv : list string)
    (ignore_unknown : bool) (ec : error_code) : config_impl * error_code :=
  parse_loop ignore_unknown options (drop 1 argv) impl ec.

(** [config::parse(argc, argv, ignore_unknown)], which throws. *)
Definition parse_throwing (impl : config_impl) (argv : list string)
    (ignore_unknown : bool) : config_impl * outcome unit :=
  let '(impl, ec) := parse impl argv ignore_unknown no_error in
  (impl, if is_error ec then throws_system_error ec "" else returns tt).

(** ** Configuration Facade *)

(** [config::has]. *)
Definition has (impl : config_impl) (name : string) : bool :=
  match get_option impl name with
  | Some (_, opt) =>
      (0 <? m_seen (base opt)) || m_has_default (base opt)
  | None => false
  end.

(** [config::count]. *)
Definition count (impl : config_impl) (name : string) : Z :=
  match get_option impl name with
  | Some (_, opt) => m_seen (base opt)
  | None => 0
  end.

(** [std::any_cast<T>(value)] on a non-empty [std::any] that holds a [vt]:
    it returns when [T] is that very type and throws otherwise. *)
Definition any_cast (T : requested_type) (vt : value_type) (v : value)
  : outcome value :=
  if bool_decide (T = stored_as vt) then returns v else throws_bad_any_cast.

(** [config::get<T>]. *)
Definition get (T : requested_type) (impl : config_impl) (name : string)
  : outcome value :=
  match get_option impl name with
  | None => throws_system_error (make_error_code unknown_option) name
  | Some (_, opt) =>
      match get_value opt with
      | any_empty =>
          throws_system_error (make_error_code option_not_specified) name
      | any_of vt v => any_cast T vt v
      end
  end.

(** [config::operands]. *)
Definition get_operands (impl : config_impl) : list string :=
  m_operands impl.

(** ** Consistency of the registry *)

(** An entity as the constructors leave it: not seen yet, and without a
    value unless a default was declared. *)
Definition fresh (o : option_object) : Prop :=
  m_seen (base o) = 0 /\
  (m_has_default (base o) = false -> value_slot o = None).

(** What the parser keeps true of every entity: an entity that has no
    default and was never counted has an empty value slot. *)
Definition slot_consistent (o : option_object) : Prop :=
  0 <= m_seen (base o) /\
  (m_seen (base o) = 0 -> m_has_default (base o) = false ->
   value_slot o = None).

Definition registry_consistent (impl : config_impl) : Prop :=
  Forall slot_consistent (m_options impl).

(** The same for a scan: a matched entity has been counted. *)
Definition scan_consistent (r : scan_result) : Prop :=
  match r with
  | scan_continue impl _ => registry_consistent impl
  | scan_argument impl _ _ opt _ =>
      registry_consistent impl /\ 1 <= m_seen (base opt)
  end.

(** ** Declarations used in the examples *)

(** [make_option<int>("port", "")]. *)
Definition port_int : option_object :=
  make_option (Some (vt_arith t_int)) "port" "".

(** [make_option<std::string>("port", "")]. *)
Definition port_string : option_object :=
  make_option (Some vt_string) "port" "".

(** [make_option<std::string>("x", "")]. *)
Definition string_x : option_object :=
  make_option (Some vt_string) "x" "".

(** [make_option("a", "")], [make_option("b", "")], [make_option("flag", "")],
    [make_option("other", "")] and [make_option("verbose,v", "")]. *)
Definition flag_a : option_object := make_option None "a" "".
Definition flag_b : option_object := make_option None "b" "".
Definition flag_flag : option_object := make_option None "flag" "".
Definition flag_other : option_object := make_option None "other" "".
Definition flag_verbose : option_object := make_option None "verbose,v" "".

(** ** What a parse can do to the registry *)

(** The dynamic type of an entity: [None] for [option<void>]. *)
Definition dynamic_type (o : option_object) : option value_type :=
  match o with
  | option_void _ => None
  | option_T vt _ _ => Some vt
  end.

(** The part of an entity that is fixed at its declaration: everything
    but [m_seen] and [m_value]. *)
Definition declaration (o : option_object)
  : string * string * ascii * bool * bool * bool * option value_type :=
  (m_name (base o), m_desc (base o), m_short_name (base o),
   m_is_flag (base o), m_has_default (base o), m_hidden (base o),
   dynamic_type o).

(** The writes of [config::parse], one at a time, on the registry and the
    error code: an operand is recorded, an error is raised, a matched
    entity is counted, or a value is assigned to a matched valued
    entity. *)
Inductive parse_step (ignore_unknown : bool)
  : config_impl * error_code -> config_impl * error_code -> Prop :=
  | step_operand impl ec arg :
      parse_step ignore_unknown (impl, ec) (emplace_operand impl arg, ec)
  | step_unknown impl ec :
      ignore_unknown = false ->
      parse_step ignore_unknown (impl, ec)
        (impl, make_error_code unknown_option)
  | step_no_argument impl ec :
      parse_step ignore_unknown (impl, ec)
        (impl, make_error_code option_does_not_accept_argument)
  | step_missing impl ec :
      parse_step ignore_unknown (impl, ec)
        (impl, make_error_code missing_argument_for_option)
  | step_seen impl ec p opt :
      m_options impl !! p = Some opt ->
      parse_step ignore_unknown (impl, ec)
        (store impl p (with_base incr_seen opt), ec)
  | step_value impl ec p opt arg :
      m_options impl !! p = Some opt ->
      m_is_flag (base opt) = false ->
      arg <> "" ->
      parse_step ignore_unknown (impl, ec)
        (store impl p (fst (set_value opt arg ec)),
         snd (set_value opt arg ec)).

(** An entity declared with a default holds a value. *)
Definition default_present (o : option_object) : Prop :=
  m_has_default (base o) = true -> value_slot o <> None.

(** An entity as one of the three constructors builds it. *)
Inductive constructed : option_object -> Prop :=
  | constructed_void name desc hidden :
      constructed (option_void_ctor name desc hidden)
  | constructed_valued vt name desc hidden :
      constructed (option_ctor vt name desc hidden)
  | constructed_default vt name v desc hidden :
      constructed (option_ctor_default vt name v desc hidden).

(** A valued entity that was matched holds a value. *)
Definition matched_has_value (o : option_object) : Prop :=
  m_is_flag (base o) = false -> 0 < m_seen (base o) -> value_slot o <> None.

(** An entity that is not an [option<T>] of an arithmetic [T]. *)
Definition not_arithmetic (o : option_object) : Prop :=
  forall ty, dynamic_type o <> Some (vt_arith ty).

(** The flag mark agrees with the dynamic type: set on an [option<void>],
    clear on an [option<T>]. *)
Definition well_kinded (o : option_object) : Prop :=
  m_is_flag (base o) =
  match dynamic_type o with None => true | Some _ => false end.

(** In between two tokens: either an error is pending, or every matched
    valued entity holds a value. *)
Definition values_settled (impl : config_impl) (ec : error_code) : Prop :=
  Forall well_kinded (m_options impl) /\
  (is_error ec = true \/ Forall matched_has_value (m_options impl)).

(** At the argument resolution: the same, once the entity behind [p] has
    been given a value. *)
Definition value_pending (impl : config_impl) (ec : error_code) (p : nat)
    (opt : option_object) : Prop :=
  well_kinded opt /\ dynamic_type opt <> None /\
  Forall well_kinded (m_options impl) /\
  (is_error ec = true \/
   forall o', value_slot o' <> None ->
     Forall matched_has_value (<[p:=o']> (m_options impl))).

(** An entity whose value, if it is a text or a path, is not empty. *)
Definition no_empty_text (o : option_object) : Prop :=
  value_slot o <> Some (v_string "") /\ value_slot o <> Some (v_path "").

(** An entity [o] next to its declaration [d]: as long as it has not been
    matched, its value slot is the declared one. *)
Definition unmatched_keeps_slot (d o : option_object) : Prop :=
  0 <= m_seen (base o) /\
  (m_seen (base o) = 0 -> value_slot o = value_slot d).

(** The same for a whole registry, place by place. *)
Definition keeps_declared_slots (decls : list option_object)
    (impl : config_impl) : Prop :=
  Forall2 unmatched_keeps_slot decls (m_options impl).

(** ** Help text: [option_base::width], [option_base::write] and
    [operator<<] *)

(** [get_terminal_width] ([cfg/utilities.hpp]) and [word_wrapper]
    ([cfg/text.hpp]) are not in the sources.  They are taken as they come:
    the width of the terminal, a [uint32_t], and, for a text and the
    width given to [write], the lines that
    [word_wrapper(text, get_terminal_width() - width)] yields. *)
Variable get_terminal_width : Z.
Variable word_wrapper : string -> Z -> list string.

(** Arithmetic on [uint32_t]. *)
Definition wrap32 (z : Z) : Z := z mod 2 ^ 32.

(** [std::string::length]. *)
Definition strlen (s : string) : Z := Z.of_nat (String.length s).

(** Sequencing of calls that can throw. *)
Definition bind {A B : Type} (x : outcome A) (f : A -> outcome B)
  : outcome B :=
  match x with
  | returns a => f a
  | throws_system_error ec what => throws_system_error ec what
  | throws_bad_any_cast => throws_bad_any_cast
  | undefined_behaviour => undefined_behaviour
  end.

(** [option_base::width]; the name [width] is taken by the width of an
    integer type. *)
Definition option_width (o : option_object) : outcome Z :=
  let result := wrap32 (strlen (m_name (base o))) in
  let result :=
    if result <=? 1 then 2
    else if negb (bool_decide (m_short_name (base o) = zero))
         then wrap32 (result + 7)
         else result in
  if negb (m_is_flag (base o)) then
    let result := wrap32 (result + 4) in
    if m_has_default (base o) then
      bind (get_default_value o) (fun default_value =>
        let result := wrap32 (result + (4 + strlen default_value)) in
        returns (wrap32 (result + 6)))
    else returns (wrap32 (result + 6))
  else returns (wrap32 (result + 6)).

(** The first part of [option_base::write], up to the description: what
    goes to the stream, and the counter [w2]. *)
Definition write_label (o : option_object) : outcome (string * Z) :=
  let w2 := 2 in
  let os := "  " in
  let '(os, w2) :=
    if negb (bool_decide (m_short_name (base o) = zero)) then
      let os := os +:+ String "-" (String (m_short_name (base o)) "") in
      let w2 := wrap32 (w2 + 2) in
      if 1 <? strlen (m_name (base o)) then
        (os +:+ " [ --" +:+ m_name (base o) +:+ " ]",
         wrap32 (w2 + (7 + strlen (m_name (base o)))))
      else (os, w2)
    else
      (os +:+ "--" +:+ m_name (base o),
       wrap32 (w2 + (2 + strlen (m_name (base o))))) in
  if negb (m_is_flag (base o)) then
    let os := os +:+ " arg" in
    let w2 := wrap32 (w2 + 4) in
    if m_has_default (base o) then
      bind (get_default_value o) (fun default_value =>
        returns (os +:+ " (=" +:+ default_value +:+ ")",
                 wrap32 (w2 + (4 + strlen default_value))))
    else returns (os, w2)
  else returns (os, w2).

(** [std::endl], and [std::string(n, ' ')]. *)
Definition endl : string := String "010" "".

Fixpoint spaces_nat (n : nat) : string :=
  match n with
  | O => ""
  | S n' => String " " (spaces_nat n')
  end.

Definition spaces (n : Z) : string := spaces_nat (Z.to_nat n).

(** The loop over the lines of the description: the first line behind
    [leading_spaces] spaces, the others behind [width]. *)
Fixpoint write_lines (leading_spaces width : Z) (lines : list string)
  : string :=
  match lines with
  | [] => ""
  | line :: lines' =>
      spaces leading_spaces +:+ line +:+ endl
      +:+ write_lines width width lines'
  end.

(** [option_base::write(os, width)]: what it appends to the stream. *)
Definition write (width : Z) (o : option_object) : outcome string :=
  bind (write_label o) (fun '(os, w2) =>
    let '(os, leading_spaces) :=
      if width <? wrap32 (w2 + 2) then (os +:+ endl, width)
      else (os, wrap32 (width - w2)) in
    returns
      (os +:+ write_lines leading_spaces width
                (word_wrapper (m_desc (base o)) width))).

(** The first loop of [operator<<]: the largest [width()]. *)
Fixpoint max_width (opts : list option_object) (options_width : Z)
  : outcome Z :=
  match opts with
  | [] => returns options_width
  | opt :: opts' =>
      bind (option_width opt) (fun w =>
        if options_width <? w then
          bind (option_width opt) (fun w' => max_width opts' w')
        else max_width opts' options_width)
  end.

(** The second loop: every option written with the same width. *)
Fixpoint write_all (options_width : Z) (opts : list option_object)
  : outcome string :=
  match opts with
  | [] => returns ""
  | opt :: opts' =>
      bind (write options_width opt) (fun text =>
        bind (write_all options_width opts') (fun text' =>
          returns (text +:+ text')))
  end.

(** [operator<<(std::ostream &, const config &)]: what it appends to the
    stream. *)
Definition print (impl : config_impl) : outcome string :=
  let terminal_width := get_terminal_width in
  bind (max_width (m_options impl) 0) (fun options_width =>
    let options_width :=
      if terminal_width / 2 <? options_width then terminal_width / 2
      else options_width in
    write_all options_width (m_options impl)).

(** [m_hidden] set to [h]. *)
Definition set_hidden (h : bool) (b : option_base) : option_base :=
  {| m_name := m_name b; m_desc := m_desc b; m_short_name := m_short_name b;
     m_is_flag := m_is_flag b; m_has_default := m_has_default b;
     m_hidden := h; m_seen := m_seen b |}.

(** ** More declarations used in the examples *)

(** [make_option<int>("port,p", 8080, "the port")]. *)
Definition port_default : option_object :=
  make_option_default (vt_arith t_int) "port,p" (v_arith 8080) "the port".

(** [make_option<const char *>("name", "x", "")]: its traits store a
    [std::string]. *)
Definition name_default : option_object :=
  make_option_default vt_string "name" (v_string "x") "".

(** [make_option<long>("size", "")]. *)
Definition size_long : option_object :=
  make_option (Some (vt_arith t_int64)) "size" "".

(** A wrapper that leaves the text on one line. *)
Definition one_line (text : string) (width : Z) : list string := [text].

(** * Properties *)

(** ** Decimal text *)

Lemma string_app_cons c s t : String c s +:+ t = String c (s +:+ t).
Proof. reflexivity. Qed.

Lemma string_app_assoc s t u : (s +:+ t) +:+ u = s +:+ (t +:+ u).
Proof.
  induction s as [|c s IH]; [done|].
  by rewrite !string_app_cons, IH.
Qed.

Lemma string_app_length s t :
  String.length (s +:+ t) = (String.length s + String.length t)%nat.
Proof.
  induction s as [|c s IH]; [done|].
  rewrite string_app_cons. simpl. by rewrite IH.
Qed.

Lemma is_digit_range c :
  is_digit c = true -> 0 <= digit_value c < 10.
Proof. unfold is_digit, digit_value. lia. Qed.

Lemma digit_char_value c : is_digit c = true -> digit_char (digit_value c) = c.
Proof.
  intros _. unfold digit_char, digit_value.
  replace (Z.of_nat (nat_of_ascii c) - 48 + 48) with (Z.of_nat (nat_of_ascii c))
    by lia.
  rewrite Nat2Z.id. apply ascii_nat_embedding.
Qed.

Lemma digit_value_zero c : digit_value c = 0 <-> c = "0"%char.
Proof.
  unfold digit_value. split.
  - intros H. rewrite <- (ascii_nat_embedding c).
    replace (nat_of_ascii c) with 48%nat by lia. done.
  - by intros ->.
Qed.

Lemma digits_fuel_S f n :
  digits_fuel (S f) n =
  if n <? 10 then String (digit_char n) ""
  else digits_fuel f (n / 10) +:+ String (digit_char (n mod 10)) "".
Proof. reflexivity. Qed.

(** The digits do not depend on the fuel once it covers the number. *)
Lemma digits_fuel_enough f1 f2 n :
  0 <= n -> n < 10 ^ Z.of_nat (S f1) -> n < 10 ^ Z.of_nat (S f2) ->
  digits_fuel (S f1) n = digits_fuel (S f2) n.
Proof.
  revert f2 n. induction f1 as [|f1 IH]; intros f2 n Hn H1 H2;
    rewrite (digits_fuel_S _ n), (digits_fuel_S f2 n);
    destruct (Z.ltb_spec n 10) as [|Hge]; try done.
  - simpl in H1. lia.
  - destruct f2 as [|f2].
    { simpl in H2. lia. }
    rewrite (IH f2); [done|..].
    + apply Z.div_pos; lia.
    + apply Z.div_lt_upper_bound; [lia|].
      rewrite Nat2Z.inj_succ, Z.pow_succ_r in H1 by lia. lia.
    + apply Z.div_lt_upper_bound; [lia|].
      rewrite Nat2Z.inj_succ, Z.pow_succ_r in H2 by lia. lia.
Qed.

Lemma digits_of_fuel f n :
  0 <= n -> n < 10 ^ Z.of_nat (S f) -> digits_of n = digits_fuel (S f) n.
Proof.
  intros Hn Hf. unfold digits_of. apply digits_fuel_enough; [done| |done].
  rewrite Nat2Z.inj_succ, Z2Nat.id by apply Z.log2_nonneg.
  destruct (decide (n = 0)) as [->|Hpos]; [done|].
  pose proof (Z.log2_spec n ltac:(lia)) as [_ Hlt].
  eapply Z.lt_le_trans; [exact Hlt|].
  apply Z.pow_le_mono_l. lia.
Qed.

Lemma digits_of_small n :
  0 <= n < 10 -> digits_of n = String (digit_char n) "".
Proof.
  intros Hn. rewrite (digits_of_fuel 0) by (simpl; lia).
  rewrite digits_fuel_S. destruct (Z.ltb_spec n 10); [done|lia].
Qed.

Lemma digits_of_step a d :
  0 < a -> 0 <= d < 10 ->
  digits_of (a * 10 + d) = digits_of a +:+ String (digit_char d) "".
Proof.
  intros Ha Hd.
  set (f := Z.to_nat (Z.log2 a)).
  assert (Hf : a < 10 ^ Z.of_nat (S f)).
  { unfold f. rewrite Nat2Z.inj_succ, Z2Nat.id by apply Z.log2_nonneg.
    pose proof (Z.log2_spec a Ha) as [_ Hlt].
    eapply Z.lt_le_trans; [exact Hlt|]. apply Z.pow_le_mono_l. lia. }
  rewrite (digits_of_fuel (S f)).
  - rewrite digits_fuel_S. destruct (Z.ltb_spec (a * 10 + d) 10); [lia|].
    replace ((a * 10 + d) / 10) with a by (apply Z.div_unique with d; lia).
    replace ((a * 10 + d) mod 10) with d by (apply Z.mod_unique with a; lia).
    by rewrite <- (digits_of_fuel f) by lia.
  - lia.
  - rewrite Nat2Z.inj_succ, Z.pow_succ_r by lia. lia.
Qed.

Lemma digits_fuel_length f n : (String.length (digits_fuel f n) <= f)%nat.
Proof.
  revert n. induction f as [|f IH]; intros n; [done|].
  rewrite digits_fuel_S. destruct (n <? 10); [simpl; lia|].
  rewrite string_app_length. specialize (IH (n / 10)). simpl. lia.
Qed.

Lemma digits_of_length f n :
  0 <= n -> n < 10 ^ Z.of_nat (S f) ->
  (String.length (digits_of n) <= S f)%nat.
Proof.
  intros Hn Hf. rewrite (digits_of_fuel f) by done. apply digits_fuel_length.
Qed.

(** Reading more digits behind a positive number appends them to its
    text. *)
Lemma digits_of_fold s acc :
  all_digits s = true -> 0 < acc ->
  digits_of (fold_left (fun acc d => acc * 10 + d) (take_digits s) acc) =
  digits_of acc +:+ s.
Proof.
  revert acc. induction s as [|c s IH]; intros acc Hs Hacc; simpl.
  - clear. induction (digits_of acc) as [|c t IH]; [done|].
    by rewrite string_app_cons, <- IH.
  - simpl in Hs. apply andb_prop in Hs as [Hc Hs]. rewrite Hc. simpl.
    pose proof (is_digit_range c Hc).
    rewrite IH by (done || lia). rewrite digits_of_step by (done || lia).
    rewrite digit_char_value by done. by rewrite string_app_assoc.
Qed.

Lemma take_digits_all s :
  all_digits s = true -> s <> "" -> take_digits s <> [].
Proof. destruct s as [|c s]; [done|]. simpl. intros [-> _]%andb_prop. done. Qed.

(** The text of the number that a digit string denotes is the string
    without its redundant zeros. *)
Lemma digits_of_decimal_value s :
  all_digits s = true -> s <> "" ->
  digits_of (decimal_value (take_digits s)) = strip_zeros s.
Proof.
  unfold decimal_value. induction s as [|c s IH]; intros Hs Hne; [done|].
  simpl in Hs. apply andb_prop in Hs as [Hc Hs].
  pose proof (is_digit_range c Hc) as Hrange.
  cbn [take_digits]. rewrite Hc. cbn [fold_left]. rewrite Z.add_0_l.
  destruct (decide (c = "0"%char)) as [->|Hnz].
  - change (digit_value "0") with 0.
    destruct s as [|c' s]; [done|].
    cbn [strip_zeros]. rewrite bool_decide_eq_true_2 by done.
    by apply IH.
  - assert (0 < digit_value c).
    { destruct (decide (digit_value c = 0)) as [Hz|]; [|lia].
      by apply digit_value_zero in Hz. }
    rewrite digits_of_fold by done. rewrite digits_of_small by lia.
    rewrite digit_char_value by done. rewrite string_app_cons.
    destruct s as [|c' s]; [done|].
    cbn [strip_zeros]. by rewrite bool_decide_eq_false_2 by done.
Qed.

Lemma decimal_value_nonneg s : 0 <= decimal_value (take_digits s).
Proof.
  unfold decimal_value.
  assert (H : forall acc, 0 <= acc ->
    0 <= fold_left (fun acc d => acc * 10 + d) (take_digits s) acc).
  { induction s as [|c s IH]; intros acc Hacc; simpl; [done|].
    destruct (is_digit c) eqn:Hc; [|done]. simpl.
    pose proof (is_digit_range c Hc). apply IH. lia. }
  by apply H.
Qed.

Lemma strip_zeros_zero s :
  all_digits s = true -> strip_zeros s = "0" ->
  decimal_value (take_digits s) = 0.
Proof.
  unfold decimal_value. induction s as [|c s IH]; intros Hs Hz; [done|].
  simpl in Hs. apply andb_prop in Hs as [Hc Hs].
  cbn [take_digits]. rewrite Hc. cbn [fold_left]. rewrite Z.add_0_l.
  destruct s as [|c' s].
  - simpl in Hz. injection Hz as ->. done.
  - cbn [strip_zeros] in Hz. case_bool_decide as Hc0; [|done].
    subst c. by apply IH.
Qed.

Lemma digit_string_spec s :
  digit_string s = true -> all_digits s = true /\ s <> "".
Proof.
  unfold digit_string. intros [Hne Hs]%andb_prop. split; [done|].
  apply negb_true_iff in Hne. by apply bool_decide_eq_false in Hne.
Qed.

Lemma after_dash_digits s :
  all_digits s = true -> after_dash s = None.
Proof.
  destruct s as [|c s]; [done|]. simpl. intros [Hc _]%andb_prop.
  case_bool_decide as Hdash; [|done]. by subst c.
Qed.

Lemma after_dash_Some s body :
  after_dash s = Some body -> s = String "-" body.
Proof.
  destruct s as [|c s]; [done|]. simpl.
  case_bool_decide as Hdash; [|done]. by intros [= ->]; subst c.
Qed.

(** On a valid token [from_chars] succeeds with the number it denotes. *)
Lemma from_chars_valid ty s value :
  valid_numeric_token ty s = true ->
  from_chars ty s value = (None, token_value s).
Proof.
  unfold valid_numeric_token.
  intros [[Hshape Hmin]%andb_prop Hmax]%andb_prop.
  unfold from_chars. unfold token_value in *.
  destruct (after_dash s) as [body|] eqn:Hdash.
  - apply andb_prop in Hshape as [-> [Hdigits Hne]%digit_string_spec].
    pose proof (take_digits_all body Hdigits Hne) as Hds.
    destruct (take_digits body) as [|d ds]; [done|].
    by rewrite Hmin, Hmax.
  - apply digit_string_spec in Hshape as [Hdigits Hne].
    pose proof (take_digits_all s Hdigits Hne) as Hds.
    destruct (take_digits s) as [|d ds]; [done|].
    by rewrite Hmin, Hmax.
Qed.

Lemma numeric_limits_64 ty :
  width ty <= 64 -> - 2 ^ 64 <= numeric_min ty /\ numeric_max ty <= 2 ^ 64.
Proof.
  intros Hw. unfold numeric_min, numeric_max.
  assert (2 ^ (width ty - 1) <= 2 ^ 64) by (apply Z.pow_le_mono_r; lia).
  assert (2 ^ width ty <= 2 ^ 64) by (apply Z.pow_le_mono_r; lia).
  assert (0 <= 2 ^ (width ty - 1)) by (apply Z.pow_nonneg; lia).
  destruct (is_signed ty); lia.
Qed.

(** The text of a number of at most 64 bits fits the 32 characters. *)
Lemma to_chars_fits z :
  - 2 ^ 64 <= z <= 2 ^ 64 ->
  to_chars 32 z =
  (None, if z <? 0 then String "-" (digits_of (- z)) else digits_of z).
Proof.
  intros Hz. unfold to_chars.
  assert (Hlen : forall n, 0 <= n <= 2 ^ 64 ->
            (String.length (digits_of n) <= 20)%nat).
  { intros n Hn. apply (digits_of_length 19); [lia|].
    eapply Z.le_lt_trans; [apply Hn|]. done. }
  destruct (Z.ltb_spec z 0).
  - specialize (Hlen (- z) ltac:(lia)).
    destruct (Nat.leb_spec (String.length (String "-" (digits_of (- z)))) 32)
      as [|Hbig]; [done|]. simpl in Hbig. lia.
  - specialize (Hlen z ltac:(lia)).
    destruct (Nat.leb_spec (String.length (digits_of z)) 32); [done|lia].
Qed.

Lemma canonical_no_redundancy s :
  no_redundancy s = true -> canonical_form s = s.
Proof.
  unfold no_redundancy, canonical_form.
  destruct (after_dash s) as [body|] eqn:Hdash.
  - apply after_dash_Some in Hdash as ->.
    destruct body as [|c body].
    + intros _. by rewrite bool_decide_eq_false_2 by done.
    + intros Hc%negb_true_iff%bool_decide_eq_false.
      assert (Hstrip : strip_zeros (String c body) = String c body).
      { destruct body; [done|]. cbn [strip_zeros].
        by rewrite bool_decide_eq_false_2 by done. }
      rewrite Hstrip. rewrite bool_decide_eq_false_2; [done|].
      intros [= -> _]. done.
  - destruct s as [|c [|c' s]]; [done..|].
    intros Hc%negb_true_iff%bool_decide_eq_false.
    cbn [strip_zeros]. by rewrite bool_decide_eq_false_2 by done.
Qed.

(** X27. For every valid numeric token of an integer type of at most 64
    bits, the arithmetic [set_value] succeeds and [to_string] of the
    value it returns is the canonical form of the token; that is the
    token itself when it has no redundant leading zero or sign. *)
Theorem numeric_round_trip ty s ec :
  width ty <= 64 ->
  valid_numeric_token ty s = true ->
  snd (traits_set_value (vt_arith ty) s ec) = ec /\
  traits_to_string (fst (traits_set_value (vt_arith ty) s ec)) =
    returns (canonical_form s) /\
  (no_redundancy s = true ->
   traits_to_string (fst (traits_set_value (vt_arith ty) s ec)) = returns s).
Proof.
  intros Hwidth Hvalid.
  assert (Htext : traits_to_string (fst (traits_set_value (vt_arith ty) s ec))
                  = returns (canonical_form s)).
  2: { split; [|split; [done|]].
       - unfold traits_set_value.
         by rewrite (from_chars_valid ty s indeterminate Hvalid).
       - intros Hcanon. by rewrite Htext, canonical_no_redundancy. }
  unfold traits_set_value.
  rewrite (from_chars_valid ty s indeterminate Hvalid). cbn [fst].
  unfold traits_to_string.
  pose proof (numeric_limits_64 ty Hwidth) as [Hlo Hhi].
  pose proof Hvalid as Hv. unfold valid_numeric_token in Hv.
  apply andb_prop in Hv as [[Hshape Hmin%Z.leb_le]%andb_prop Hmax%Z.leb_le].
  rewrite to_chars_fits by lia. f_equal.
  unfold token_value, canonical_form in *.
  destruct (after_dash s) as [body|] eqn:Hdash.
  - apply andb_prop in Hshape as [_ [Hdigits Hne]%digit_string_spec].
    pose proof (decimal_value_nonneg body) as Hnonneg.
    rewrite <- (digits_of_decimal_value body Hdigits Hne).
    destruct (Z.ltb_spec (- decimal_value (take_digits body)) 0) as [Hneg|Hzero].
    + rewrite Z.opp_involutive. rewrite bool_decide_eq_false_2; [done|].
      intros Hz. rewrite digits_of_decimal_value in Hz by done.
      apply strip_zeros_zero in Hz; [lia|done].
    + assert (Hz : decimal_value (take_digits body) = 0) by lia.
      rewrite Hz. by rewrite bool_decide_eq_true_2 by done.
  - apply digit_string_spec in Hshape as [Hdigits Hne].
    pose proof (decimal_value_nonneg s) as Hnonneg.
    destruct (Z.ltb_spec (decimal_value (take_digits s)) 0); [lia|].
    by apply digits_of_decimal_value.
Qed.
(** ** The value slot on a failed conversion *)

Lemma from_chars_failure ty s value e :
  fst (from_chars ty s value) = Some e -> snd (from_chars ty s value) = value.
Proof.
  unfold from_chars.
  destruct (after_dash s) as [body|]; [destruct (is_signed ty)|];
    (match goal with |- context [take_digits ?b] =>
       destruct (take_digits b) as [|d ds] end; [done|]);
    by case_match.
Qed.

(** Whenever the conversion of the token fails, the arithmetic
    [set_value] stores the uninitialised local into the value slot. *)
Lemma set_value_conversion_failure ty b slot argument ec e :
  fst (from_chars ty argument indeterminate) = Some e ->
  set_value (option_T (vt_arith ty) b slot) argument ec =
  (option_T (vt_arith ty) b (Some (v_arith indeterminate)), generic_code e).
Proof.
  intros Hfail. pose proof (from_chars_failure _ _ _ _ Hfail) as Hvalue.
  unfold set_value, traits_set_value.
  destruct (from_chars ty argument indeterminate) as [r_ec value].
  simpl in *. by subst.
Qed.

(** C1 (the code departs from the claim).  On the token [abc] the
    conversion to [int] fails, and [set_value] sets the error code; but
    the value slot is not what it was before the call: it now holds the
    uninitialised local of the traits, for an option without a default
    (whose slot was empty) as for one with the default 8080.  After a
    parse that fails this way [get<int>] returns that value instead of
    throwing [option_not_specified]. *)
Theorem set_value_failure_overwrites_slot :
  value_slot port_int = None /\
  set_value port_int "abc" no_error =
    (option_T (vt_arith t_int) (base port_int)
       (Some (v_arith indeterminate)),
     generic_code invalid_argument) /\
  value_slot
    (fst (set_value
            (make_option_default (vt_arith t_int) "port" (v_arith 8080) "")
            "abc" no_error)) = Some (v_arith indeterminate) /\
  get (vt_arith t_int)
    (fst (parse (init [port_int]) ["prog"; "--port"; "abc"] false no_error))
    "port" = returns (v_arith indeterminate).
Proof. by vm_compute. Qed.

(** ** The text of the default *)

(** C8 (the code departs from the claim).  For a flag
    [get_default_value] is the empty string; for a valued option declared
    without a default it is not: with an empty value slot it dereferences
    the empty optional, and once a value has been assigned it is the text
    of that value. *)
Theorem get_default_value_without_default :
  m_has_default (base port_string) = false /\
  get_default_value port_string = undefined_behaviour /\
  get_default_value (fst (set_value port_string "foo" no_error)) =
    returns "foo" /\
  get_default_value flag_flag = returns "".
Proof. by vm_compute. Qed.

(** ** The error channel of the loop *)

Lemma parse_loop_error ignore_unknown state args impl ec :
  is_error ec = true ->
  parse_loop ignore_unknown state args impl ec = (impl, ec).
Proof. intros Hec. destruct args as [|arg rest]; simpl; [done|]. by rewrite Hec. Qed.

Lemma short_options_error ignore_unknown arg impl ec :
  is_error ec = true ->
  short_options ignore_unknown arg impl ec = scan_continue impl ec.
Proof. intros Hec. destruct arg; simpl; [done|]. by rewrite Hec. Qed.

(** ** The [operands] state *)

(** In the [operands] state every slot is recorded, in order, and the
    entities are left alone. *)
Lemma parse_loop_operands ignore_unknown rest impl :
  parse_loop ignore_unknown operands rest impl no_error =
  ({| m_options := m_options impl; m_operands := m_operands impl ++ rest |},
   no_error).
Proof.
  revert impl. induction rest as [|arg rest IH]; intros impl; simpl.
  - rewrite app_nil_r. by destruct impl.
  - rewrite IH. simpl. by rewrite <- app_assoc.
Qed.

(** C5. When the loop, in the [options] state, reads the bare token [--],
    every slot after it is appended to the operands in order and the
    entities stay as they are: no option is matched any more.  In
    particular [["prog"; "--"; "--flag"]] against a registry with the flag
    [flag] leaves [count "flag" = 0] and the operands [["--flag"]]. *)
Theorem end_of_options_marker :
  (forall ignore_unknown rest impl,
     parse_loop ignore_unknown options ("--" :: rest) impl no_error =
     ({| m_options := m_options impl;
         m_operands := m_operands impl ++ rest |}, no_error)) /\
  (forall ignore_unknown,
     let impl := fst (parse (init [make_option None "flag" ""])
                        ["prog"; "--"; "--flag"] ignore_unknown no_error) in
     count impl "flag" = 0 /\ get_operands impl = ["--flag"]).
Proof.
  split.
  - intros ignore_unknown rest impl. apply parse_loop_operands.
  - intros ignore_unknown. by vm_compute.
Qed.

(** ** The typed getter *)

(** C10. For a name that no entity of the registry carries, [get<T>]
    throws [unknown_option], which is not [option_not_specified]. *)
Theorem get_undeclared_name T impl name :
  Forall (fun o => m_name (base o) <> name) (m_options impl) ->
  get T impl name = throws_system_error (make_error_code unknown_option) name /\
  get T impl name <>
    throws_system_error (make_error_code option_not_specified) name.
Proof.
  intros Habsent.
  assert (Hnone : get_option impl name = None).
  { unfold get_option. by apply list_find_None. }
  unfold get. rewrite Hnone. split; [done|]. discriminate.
Qed.

(** ** The short-option cluster *)

(** A cluster scanned to its end is a prefix of any longer cluster. *)
Lemma short_options_app ignore_unknown pre rest impl ec impl' ec' :
  short_options ignore_unknown pre impl ec = scan_continue impl' ec' ->
  short_options ignore_unknown (pre +:+ rest) impl ec =
  short_options ignore_unknown rest impl' ec'.
Proof.
  revert impl ec. induction pre as [|c pre IH]; intros impl ec; simpl.
  - intros [= -> ->]. done.
  - destruct (is_error ec) eqn:Hec.
    + intros [= -> ->]. by rewrite short_options_error.
    + destruct (get_option_short impl c) as [[p opt]|]; [|by apply IH].
      destruct (m_is_flag _); [by apply IH|discriminate].
Qed.

(** C2, amended.  At an unknown character the scan of a cluster, with
    unknown options reported, records [unknown_option] and ends there:
    the registry is the one reached before that character, whatever
    follows it in the cluster, so a flag behind the unknown character is
    not counted.  The scan goes on behind the unknown character only when
    unknown options are tolerated. *)
Theorem cluster_scan_at_unknown ignore_unknown pre c rest impl impl' :
  short_options ignore_unknown pre impl no_error =
    scan_continue impl' no_error ->
  get_option_short impl' c = None ->
  short_options ignore_unknown (pre +:+ String c rest) impl no_error =
    if ignore_unknown then short_options true rest impl' no_error
    else scan_continue impl' (make_error_code unknown_option).
Proof.
  intros Hpre Hc. rewrite (short_options_app _ _ _ _ _ _ _ Hpre).
  simpl. rewrite Hc. destruct ignore_unknown; [done|].
  by apply short_options_error.
Qed.

(** ** Splitting a long option at its first [=] *)

Lemma index_equals_cons c s :
  index 0 "=" (String c s) =
  if bool_decide (c = "="%char) then Some 0%nat
  else S <$> index 0 "=" s.
Proof.
  cbn [index].
  change (String.prefix "=" (String c s))
    with (if ascii_dec "=" c then String.prefix "" s else false).
  destruct (ascii_dec "=" c) as [<-|Hne].
  - rewrite bool_decide_eq_true_2 by done. by destruct s.
  - rewrite bool_decide_eq_false_2 by done. by destruct (index 0 "=" s).
Qed.

Lemma index_equals_app name value :
  index 0 "=" name = None ->
  index 0 "=" (name +:+ String "=" value) = Some (String.length name).
Proof.
  induction name as [|c name IH]; intros Hname.
  - change ("" +:+ String "=" value) with (String "=" value).
    rewrite index_equals_cons. by rewrite bool_decide_eq_true_2 by done.
  - rewrite index_equals_cons in Hname. rewrite string_app_cons.
    rewrite index_equals_cons. case_bool_decide; [done|].
    destruct (index 0 "=" name); [done|]. by rewrite IH.
Qed.

Lemma substring_all s : substring 0 (String.length s) s = s.
Proof. induction s as [|c s IH]; [done|]. simpl. by rewrite IH. Qed.

Lemma substring_app_l s t : substring 0 (String.length s) (s +:+ t) = s.
Proof.
  induction s as [|c s IH]; [by destruct t|].
  rewrite string_app_cons. simpl. by rewrite IH.
Qed.

Lemma substring_app_r s t n :
  substring (String.length s + n) (String.length t - n) (s +:+ t) =
  substring n (String.length t - n) t.
Proof.
  induction s as [|c s IH]; [done|]. rewrite string_app_cons. simpl. done.
Qed.

Lemma split_at_equals name value :
  let s_arg := name +:+ String "=" value in
  let p := String.length name in
  substring 0 p s_arg = name /\
  substring (p + 1) (String.length s_arg - (p + 1)) s_arg = value.
Proof.
  simpl. split; [apply substring_app_l|].
  rewrite string_app_length.
  replace (String.length name + String.length (String "=" value)
           - (String.length name + 1))%nat
    with (String.length (String "=" value) - 1)%nat by (simpl; lia).
  rewrite substring_app_r. simpl. rewrite Nat.sub_0_r. apply substring_all.
Qed.

Lemma long_option_inline ignore_unknown name value impl ec :
  index 0 "=" name = None ->
  long_option ignore_unknown (name +:+ String "=" value) impl ec =
  match get_option impl name with
  | None =>
      scan_continue impl
        (if ignore_unknown then ec else make_error_code unknown_option)
  | Some (p, opt) =>
      if m_is_flag (base opt) then
        scan_continue (store impl p (with_base incr_seen opt))
          (if bool_decide (value = "") then ec
           else make_error_code option_does_not_accept_argument)
      else
        scan_argument (store impl p (with_base incr_seen opt)) ec p
          (with_base incr_seen opt) value
  end.
Proof.
  intros Hname. unfold long_option.
  rewrite (index_equals_app name value Hname).
  destruct (split_at_equals name value) as [-> ->]. done.
Qed.

(** An inline argument that is not empty is used as the claims C3 and C4
    say: a flag rejects it, and a valued option takes it without reading
    the next slot. *)
Lemma flag_rejects_inline_argument ignore_unknown name value impl p opt :
  index 0 "=" name = None ->
  get_option impl name = Some (p, opt) ->
  m_is_flag (base opt) = true ->
  value <> "" ->
  long_option ignore_unknown (name +:+ String "=" value) impl no_error =
  scan_continue (store impl p (with_base incr_seen opt))
    (make_error_code option_does_not_accept_argument).
Proof.
  intros Hname Hfind Hflag Hvalue.
  rewrite long_option_inline by done. rewrite Hfind, Hflag.
  by rewrite bool_decide_eq_false_2 by done.
Qed.

Lemma inline_argument_used_directly
    ignore_unknown name value rest impl p opt :
  name <> "" ->
  index 0 "=" name = None ->
  get_option impl name = Some (p, opt) ->
  m_is_flag (base opt) = false ->
  value <> "" ->
  parse_loop ignore_unknown options
    (String "-" (String "-" (name +:+ String "=" value)) :: rest)
    impl no_error =
  parse_loop ignore_unknown options rest
    (store (store impl p (with_base incr_seen opt)) p
       (fst (set_value (with_base incr_seen opt) value no_error)))
    (snd (set_value (with_base incr_seen opt) value no_error)).
Proof.
  intros Hne Hname Hfind Hvalued Hvalue.
  cbn [parse_loop is_error after_dash].
  rewrite (bool_decide_eq_true_2 ("-"%char = "-"%char)) by done.
  rewrite bool_decide_eq_false_2.
  2: { destruct name as [|c name]; [done|]. rewrite string_app_cons.
       intros [= _ Htail]. }
  unfold scan_token. cbn [after_dash].
  rewrite (bool_decide_eq_true_2 ("-"%char = "-"%char)) by done.
  rewrite long_option_inline by done. rewrite Hfind, Hvalued.
  rewrite bool_decide_eq_false_2 by done.
  unfold assign_argument. rewrite bool_decide_eq_false_2 by done.
  by destruct (set_value (with_base incr_seen opt) value no_error).
Qed.

(** C3 (the code departs from the claim).  In
    [["prog"; "--port="; "80"]] the token has an [=] and nothing behind
    it; the valued option [port] does not get that empty text but reads
    the next slot: its value is [80] and [80] is no operand. *)
Theorem empty_inline_argument_reads_next_slot ignore_unknown :
  parse (init [port_string]) ["prog"; "--port="; "80"] ignore_unknown
    no_error =
  (store (init [port_string]) 0
     (option_T vt_string (incr_seen (base port_string))
        (Some (v_string "80"))),
   no_error) /\
  get vt_string
    (fst (parse (init [port_string]) ["prog"; "--port="; "80"]
            ignore_unknown no_error)) "port" = returns (v_string "80") /\
  get_operands
    (fst (parse (init [port_string]) ["prog"; "--port="; "80"]
            ignore_unknown no_error)) = [].
Proof. by vm_compute. Qed.

(** C4 (the code departs from the claim).  In [["prog"; "--flag="]] the
    token of the flag [flag] has an [=], yet no error is raised: the flag
    is counted as if the token were [--flag]. *)
Theorem flag_with_empty_inline_argument ignore_unknown :
  parse (init [flag_flag]) ["prog"; "--flag="] ignore_unknown no_error =
  (store (init [flag_flag]) 0 (with_base incr_seen flag_flag), no_error) /\
  count
    (fst (parse (init [flag_flag]) ["prog"; "--flag="] ignore_unknown
            no_error)) "flag" = 1.
Proof. by vm_compute. Qed.

(** ** Argument resolution *)

(** C9. When a valued option has been matched without an argument of its
    own and a next slot exists, that slot is the argument as it stands,
    leading dashes included: it goes to [set_value] and the loop resumes
    behind it, so it is never matched as an option. *)
Theorem next_slot_taken_verbatim
    ignore_unknown arg next rest impl impl' ec' p opt :
  arg <> "-" ->
  scan_token ignore_unknown arg impl no_error =
    scan_argument impl' ec' p opt "" ->
  next <> "" ->
  parse_loop ignore_unknown options (String "-" arg :: next :: rest)
    impl no_error =
  parse_loop ignore_unknown options rest
    (store impl' p (fst (set_value opt next ec')))
    (snd (set_value opt next ec')).
Proof.
  intros Harg Hscan Hnext. cbn [parse_loop is_error after_dash].
  rewrite (bool_decide_eq_true_2 ("-"%char = "-"%char)) by done.
  rewrite (bool_decide_eq_false_2 (arg = "-")) by done.
  rewrite Hscan. rewrite bool_decide_eq_true_2 by done.
  unfold assign_argument. rewrite bool_decide_eq_false_2 by done.
  by destruct (set_value opt next ec').
Qed.

(** ** The value slot of an entity that was never matched *)

Lemma option_void_ctor_fresh name desc hidden :
  fresh (option_void_ctor name desc hidden).
Proof.
  unfold fresh, option_void_ctor, option_base_ctor.
  by repeat case_match.
Qed.

Lemma option_ctor_fresh vt name desc hidden :
  fresh (option_ctor vt name desc hidden).
Proof.
  unfold fresh, option_ctor, option_base_ctor.
  by repeat case_match.
Qed.

Lemma option_ctor_default_fresh vt name v desc hidden :
  fresh (option_ctor_default vt name v desc hidden).
Proof.
  unfold fresh, option_ctor_default, option_base_ctor.
  by repeat case_match.
Qed.

Lemma fresh_slot_consistent o : fresh o -> slot_consistent o.
Proof. intros [Hseen Hslot]. split; [lia|auto]. Qed.

Lemma init_consistent decls :
  Forall fresh decls -> registry_consistent (init decls).
Proof.
  intros Hdecls. unfold registry_consistent, init, config_impl_ctor; simpl.
  unfold clone. rewrite map_id.
  eapply Forall_impl; [exact Hdecls|]. apply fresh_slot_consistent.
Qed.

Lemma get_option_lookup impl name p opt :
  get_option impl name = Some (p, opt) -> m_options impl !! p = Some opt.
Proof. unfold get_option. intros H. by apply list_find_Some in H as [? _]. Qed.

Lemma get_option_short_lookup impl c p opt :
  get_option_short impl c = Some (p, opt) -> m_options impl !! p = Some opt.
Proof.
  unfold get_option_short. intros H. by apply list_find_Some in H as [? _].
Qed.

Lemma incr_seen_consistent o :
  slot_consistent o ->
  slot_consistent (with_base incr_seen o) /\
  1 <= m_seen (base (with_base incr_seen o)).
Proof.
  intros [Hseen _].
  destruct o as [b|vt b v]; unfold slot_consistent; simpl in *;
    (split; [split; [lia|intros; lia]|lia]).
Qed.

Lemma set_value_base o argument ec :
  base (fst (set_value o argument ec)) = base o.
Proof.
  destruct o as [b|vt b v]; simpl; [done|].
  by destruct (traits_set_value vt argument ec).
Qed.

Lemma store_consistent impl p o :
  registry_consistent impl -> slot_consistent o ->
  registry_consistent (store impl p o).
Proof. intros Himpl Ho. unfold registry_consistent, store; simpl.
  by apply Forall_insert. Qed.

Lemma lookup_consistent impl p o :
  registry_consistent impl -> m_options impl !! p = Some o ->
  slot_consistent o.
Proof. intros Himpl Hp. eapply Forall_lookup_1; eauto. Qed.

Lemma long_option_consistent ignore_unknown arg impl ec :
  registry_consistent impl ->
  scan_consistent (long_option ignore_unknown arg impl ec).
Proof.
  intros Himpl. unfold long_option.
  destruct (index 0 "=" arg) as [q|];
    (match goal with |- context [get_option impl ?n] =>
       destruct (get_option impl n) as [[p opt]|] eqn:Hfind end;
     [|done]);
    apply get_option_lookup in Hfind;
    pose proof (lookup_consistent _ _ _ Himpl Hfind) as Hopt;
    apply incr_seen_consistent in Hopt as [Hopt Hseen];
    (destruct (m_is_flag (base opt)); simpl;
     [by apply store_consistent|split; [by apply store_consistent|done]]).
Qed.

Lemma short_options_consistent ignore_unknown arg impl ec :
  registry_consistent impl ->
  scan_consistent (short_options ignore_unknown arg impl ec).
Proof.
  revert impl ec. induction arg as [|c arg IH]; intros impl ec Himpl; simpl.
  - done.
  - destruct (is_error ec); [done|].
    destruct (get_option_short impl c) as [[p opt]|] eqn:Hfind; [|by apply IH].
    apply get_option_short_lookup in Hfind.
    pose proof (lookup_consistent _ _ _ Himpl Hfind) as Hopt.
    apply incr_seen_consistent in Hopt as [Hopt Hseen].
    destruct (m_is_flag _).
    + apply IH. by apply store_consistent.
    + simpl. split; [by apply store_consistent|done].
Qed.

Lemma scan_token_consistent ignore_unknown arg impl ec :
  registry_consistent impl ->
  scan_consistent (scan_token ignore_unknown arg impl ec).
Proof.
  intros Himpl. unfold scan_token. destruct (after_dash arg).
  - by apply long_option_consistent.
  - by apply short_options_consistent.
Qed.

Lemma assign_argument_consistent impl ec p opt opt_arg :
  registry_consistent impl -> 1 <= m_seen (base opt) ->
  registry_consistent (fst (assign_argument impl ec p opt opt_arg)).
Proof.
  intros Himpl Hseen. unfold assign_argument. case_bool_decide; [done|].
  pose proof (set_value_base opt opt_arg ec) as Hbase.
  destruct (set_value opt opt_arg ec) as [opt' ec']; simpl in *.
  apply store_consistent; [done|]. unfold slot_consistent.
  rewrite Hbase. split; [lia|intros; lia].
Qed.

(** The loop keeps the registry consistent.  The induction is on a bound
    of the number of slots, since one turn can read two of them. *)
Lemma parse_loop_consistent ignore_unknown state args impl ec :
  registry_consistent impl ->
  registry_consistent (fst (parse_loop ignore_unknown state args impl ec)).
Proof.
  remember (length args) as n eqn:Hn.
  assert (Hle : (length args <= n)%nat) by lia. clear Hn.
  revert state args impl ec Hle.
  induction n as [|n IH]; intros state args impl ec Hle Himpl;
    destruct args as [|arg rest]; simpl in *; try done; [lia|].
  destruct (is_error ec); [done|].
  assert (Hrest : (length rest <= n)%nat) by lia.
  destruct state.
  - destruct (after_dash arg) as [arg1|]; [|by apply IH].
    case_bool_decide; [by apply IH|].
    pose proof (scan_token_consistent ignore_unknown arg1 impl ec Himpl)
      as Hscan.
    destruct (scan_token ignore_unknown arg1 impl ec)
      as [impl1 ec1|impl1 ec1 p opt opt_arg]; simpl in Hscan.
    + by apply IH.
    + destruct Hscan as [Himpl1 Hseen].
      case_bool_decide.
      * destruct rest as [|next rest'].
        { by apply assign_argument_consistent. }
        pose proof (assign_argument_consistent impl1 ec1 p opt next
                      Himpl1 Hseen) as Hassign.
        destruct (assign_argument impl1 ec1 p opt next) as [impl2 ec2].
        apply IH; [simpl in *; lia|done].
      * pose proof (assign_argument_consistent impl1 ec1 p opt opt_arg
                      Himpl1 Hseen) as Hassign.
        destruct (assign_argument impl1 ec1 p opt opt_arg) as [impl2 ec2].
        by apply IH.
  - by apply IH.
Qed.

(** C6. After any parse of a registry of freshly declared options, the
    typed getter throws [option_not_specified] for every name whose
    entity was never matched (its count is still 0) and has no declared
    default. *)
Theorem get_never_matched_no_default
    T decls argv ignore_unknown ec name p opt :
  Forall fresh decls ->
  get_option (fst (parse (init decls) argv ignore_unknown ec)) name =
    Some (p, opt) ->
  m_seen (base opt) = 0 ->
  m_has_default (base opt) = false ->
  get T (fst (parse (init decls) argv ignore_unknown ec)) name =
    throws_system_error (make_error_code option_not_specified) name.
Proof.
  intros Hdecls Hfind Hseen Hdefault.
  pose proof (parse_loop_consistent ignore_unknown options (drop 1 argv)
                (init decls) ec (init_consistent decls Hdecls)) as Hok.
  fold (parse (init decls) argv ignore_unknown ec) in Hok.
  pose proof (lookup_consistent _ _ _ Hok (get_option_lookup _ _ _ _ Hfind))
    as [_ Hslot].
  specialize (Hslot Hseen Hdefault).
  unfold get. rewrite Hfind.
  destruct opt as [b|vt b v]; simpl in *; [done|]. by rewrite Hslot.
Qed.

(** ** The writes of a parse *)

(** An invariant of the loop, from what it does at each kind of token. *)
Lemma parse_loop_invariant ignore_unknown
    (I : config_impl -> error_code -> Prop)
    (J : config_impl -> error_code -> nat -> option_object -> Prop) :
  (forall impl ec arg, I impl ec -> I (emplace_operand impl arg) ec) ->
  (forall arg impl ec, is_error ec = false -> I impl ec ->
     match scan_token ignore_unknown arg impl ec with
     | scan_continue impl' ec' => I impl' ec'
     | scan_argument impl' ec' p opt _ => J impl' ec' p opt
     end) ->
  (forall impl ec p opt arg, J impl ec p opt ->
     I (fst (assign_argument impl ec p opt arg))
       (snd (assign_argument impl ec p opt arg))) ->
  forall state args impl ec, I impl ec ->
    I (fst (parse_loop ignore_unknown state args impl ec))
      (snd (parse_loop ignore_unknown state args impl ec)).
Proof.
  intros Hoperand Hscan Hassign state args.
  remember (length args) as n eqn:Hn.
  assert (Hle : (length args <= n)%nat) by lia. clear Hn.
  revert state args Hle.
  induction n as [|n IH]; intros state args Hle impl ec HI;
    destruct args as [|arg rest]; simpl in *; try done; [lia|].
  destruct (is_error ec) eqn:Hec; [done|].
  assert (Hrest : (length rest <= n)%nat) by lia.
  destruct state.
  - destruct (after_dash arg) as [arg1|]; [|by apply IH, Hoperand].
    case_bool_decide; [by apply IH|].
    pose proof (Hscan arg1 impl ec Hec HI) as Hs.
    destruct (scan_token ignore_unknown arg1 impl ec)
      as [impl1 ec1|impl1 ec1 p opt opt_arg].
    + by apply IH.
    + case_bool_decide.
      * destruct rest as [|next rest']; [by apply Hassign|].
        pose proof (Hassign impl1 ec1 p opt next Hs) as Ha.
        destruct (assign_argument impl1 ec1 p opt next) as [impl2 ec2].
        apply IH; [simpl in *; lia|done].
      * pose proof (Hassign impl1 ec1 p opt opt_arg Hs) as Ha.
        destruct (assign_argument impl1 ec1 p opt opt_arg) as [impl2 ec2].
        by apply IH.
  - by apply IH, Hoperand.
Qed.

Lemma store_lookup impl p o o' :
  m_options impl !! p = Some o -> m_options (store impl p o') !! p = Some o'.
Proof.
  intros Hp. unfold store; simpl. apply list_lookup_insert_eq.
  by eapply lookup_lt_Some.
Qed.

Lemma long_option_steps ignore_unknown arg impl ec :
  match long_option ignore_unknown arg impl ec with
  | scan_continue impl' ec' =>
      rtc (parse_step ignore_unknown) (impl, ec) (impl', ec')
  | scan_argument impl' ec' p opt _ =>
      rtc (parse_step ignore_unknown) (impl, ec) (impl', ec') /\
      m_options impl' !! p = Some opt /\ m_is_flag (base opt) = false
  end.
Proof.
  unfold long_option.
  destruct (index 0 "=" arg) as [q|];
    (match goal with |- context [get_option impl ?n] =>
       destruct (get_option impl n) as [[p opt]|] eqn:Hfind end;
     [apply get_option_lookup in Hfind|
      destruct ignore_unknown; [done|by apply rtc_once, step_unknown]]);
    (destruct (m_is_flag (base opt)) eqn:Hflag;
     [|split_and!;
       [by apply rtc_once, step_seen|by eapply store_lookup
       |by destruct opt]]).
  - case_bool_decide.
    + by apply rtc_once, step_seen.
    + eapply rtc_l; [apply step_no_argument|]. by apply rtc_once, step_seen.
  - rewrite bool_decide_eq_true_2 by done. by apply rtc_once, step_seen.
Qed.

Lemma short_options_steps ignore_unknown arg impl ec :
  match short_options ignore_unknown arg impl ec with
  | scan_continue impl' ec' =>
      rtc (parse_step ignore_unknown) (impl, ec) (impl', ec')
  | scan_argument impl' ec' p opt _ =>
      rtc (parse_step ignore_unknown) (impl, ec) (impl', ec') /\
      m_options impl' !! p = Some opt /\ m_is_flag (base opt) = false
  end.
Proof.
  revert impl ec. induction arg as [|c arg IH]; intros impl ec; simpl.
  - done.
  - destruct (is_error ec); [done|].
    destruct (get_option_short impl c) as [[p opt]|] eqn:Hfind.
    + apply get_option_short_lookup in Hfind.
      assert (Hstep : parse_step ignore_unknown (impl, ec)
                (store impl p (with_base incr_seen opt), ec))
        by by apply step_seen.
      destruct (m_is_flag (base (with_base incr_seen opt))) eqn:Hflag.
      * specialize (IH (store impl p (with_base incr_seen opt)) ec).
        destruct (short_options _ _ _ _) as [impl' ec'|impl' ec' p' opt' a].
        -- by eapply rtc_l.
        -- destruct IH as (? & ? & ?). split_and!; [by eapply rtc_l|done..].
      * split_and!; [by apply rtc_once|by eapply store_lookup|done].
    + destruct ignore_unknown eqn:Hiu; [apply IH|].
      specialize (IH impl (make_error_code unknown_option)).
      assert (Hstep : parse_step false (impl, ec)
                (impl, make_error_code unknown_option))
        by by apply step_unknown.
      destruct (short_options _ _ _ _) as [impl' ec'|impl' ec' p' opt' a].
      * by eapply rtc_l.
      * destruct IH as (? & ? & ?). split_and!; [by eapply rtc_l|done..].
Qed.

(** Whatever [config::parse] does is a sequence of those writes. *)
Lemma parse_loop_steps ignore_unknown state args impl ec :
  rtc (parse_step ignore_unknown) (impl, ec)
    (parse_loop ignore_unknown state args impl ec).
Proof.
  pose proof (parse_loop_invariant ignore_unknown
    (fun impl' ec' => rtc (parse_step ignore_unknown) (impl, ec) (impl', ec'))
    (fun impl' ec' p opt =>
       rtc (parse_step ignore_unknown) (impl, ec) (impl', ec') /\
       m_options impl' !! p = Some opt /\ m_is_flag (base opt) = false))
    as Hinv.
  rewrite (surjective_pairing (parse_loop ignore_unknown state args impl ec)).
  apply Hinv; clear Hinv.
  - intros impl' ec' arg Hsteps. eapply rtc_r; [exact Hsteps|].
    apply step_operand.
  - intros arg impl' ec' _ Hsteps. unfold scan_token.
    destruct (after_dash arg) as [arg'|].
    + pose proof (long_option_steps ignore_unknown arg' impl' ec') as Hs.
      destruct (long_option _ _ _ _); [by etrans|].
      destruct Hs as (? & ? & ?). split_and!; [by etrans|done..].
    + pose proof (short_options_steps ignore_unknown arg impl' ec') as Hs.
      destruct (short_options _ _ _ _); [by etrans|].
      destruct Hs as (? & ? & ?). split_and!; [by etrans|done..].
  - intros impl' ec' p opt arg (Hsteps & Hp & Hflag). unfold assign_argument.
    case_bool_decide as Harg; simpl.
    + eapply rtc_r; [exact Hsteps|]. apply step_missing.
    + pose proof (step_value ignore_unknown impl' ec' p opt arg Hp Hflag Harg)
        as Hstep.
      destruct (set_value opt arg ec'); simpl in *. by eapply rtc_r.
  - done.
Qed.

Lemma with_base_incr_seen_declaration o :
  declaration (with_base incr_seen o) = declaration o.
Proof. by destruct o. Qed.

Lemma set_value_declaration o argument ec :
  declaration (fst (set_value o argument ec)) = declaration o.
Proof.
  destruct o as [b|vt b v]; simpl; [done|].
  by destruct (traits_set_value vt argument ec).
Qed.

Lemma store_declaration impl p o o' :
  m_options impl !! p = Some o -> declaration o' = declaration o ->
  declaration <$> m_options (store impl p o') = declaration <$> m_options impl.
Proof.
  intros Hp Hdecl. unfold store; simpl. rewrite list_fmap_insert, Hdecl.
  apply list_insert_id. by rewrite list_lookup_fmap, Hp.
Qed.

Lemma parse_step_declaration ignore_unknown impl ec impl' ec' :
  parse_step ignore_unknown (impl, ec) (impl', ec') ->
  declaration <$> m_options impl' = declaration <$> m_options impl.
Proof.
  inversion 1; subst; try done.
  - eapply store_declaration; [done|]. apply with_base_incr_seen_declaration.
  - eapply store_declaration; [done|]. apply set_value_declaration.
Qed.

(** A property of the state that every write keeps is kept by the
    parse. *)
Lemma parse_steps_invariant ignore_unknown
    (P : config_impl * error_code -> Prop) s s' :
  (forall s1 s2, parse_step ignore_unknown s1 s2 -> P s1 -> P s2) ->
  rtc (parse_step ignore_unknown) s s' -> P s -> P s'.
Proof. intros Hstep Hrtc. induction Hrtc; eauto. Qed.

Lemma parse_loop_declarations ignore_unknown state args impl ec :
  declaration <$>
    m_options (fst (parse_loop ignore_unknown state args impl ec)) =
  declaration <$> m_options impl.
Proof.
  pose proof (parse_loop_steps ignore_unknown state args impl ec) as Hsteps.
  apply (parse_steps_invariant ignore_unknown
           (fun s => declaration <$> m_options (fst s) =
                     declaration <$> m_options impl) _ _) in Hsteps;
    [done| |done].
  intros [impl1 ec1] [impl2 ec2] Hstep Heq; simpl in *.
  by rewrite (parse_step_declaration _ _ _ _ _ Hstep).
Qed.

(** X1. A parse leaves the declaration of every entity as it was: the
    registry keeps its length and its order, and every entity its name,
    description, short name, flag and default marks and type.  Only
    [m_seen] and [m_value] change. *)
Theorem parse_keeps_declarations impl argv ignore_unknown ec :
  declaration <$> m_options (fst (parse impl argv ignore_unknown ec)) =
  declaration <$> m_options impl.
Proof. apply parse_loop_declarations. Qed.

Lemma store_seen_le impl p o o' :
  m_options impl !! p = Some o -> m_seen (base o) <= m_seen (base o') ->
  Forall2 (fun a b => m_seen (base a) <= m_seen (base b))
    (m_options impl) (m_options (store impl p o')).
Proof.
  intros Hp Hle. unfold store; simpl.
  rewrite <- (list_insert_id (m_options impl) p o Hp) at 1.
  apply Forall2_insert; [|done].
  apply Forall_Forall2_diag, Forall_forall. intros; lia.
Qed.

Lemma set_value_seen o argument ec :
  m_seen (base (fst (set_value o argument ec))) = m_seen (base o).
Proof. by rewrite set_value_base. Qed.

Lemma parse_loop_counts_grow ignore_unknown state args impl ec :
  Forall2 (fun o o' => m_seen (base o) <= m_seen (base o'))
    (m_options impl)
    (m_options (fst (parse_loop ignore_unknown state args impl ec))).
Proof.
  pose proof (parse_loop_steps ignore_unknown state args impl ec) as Hsteps.
  apply (parse_steps_invariant ignore_unknown
           (fun s => Forall2 (fun o o' => m_seen (base o) <= m_seen (base o'))
                       (m_options impl) (m_options (fst s))) _ _) in Hsteps;
    [done| |].
  - intros [impl1 ec1] [impl2 ec2] Hstep Hle; simpl in *.
    assert (Hstep12 : Forall2 (fun o o' => m_seen (base o) <= m_seen (base o'))
                        (m_options impl1) (m_options impl2)).
    { inversion Hstep; subst;
        try (apply Forall_Forall2_diag, Forall_forall; intros; lia).
      - eapply store_seen_le; [done|]. destruct opt; simpl; lia.
      - eapply store_seen_le; [done|]. rewrite set_value_seen. lia. }
    eapply Forall2_trans; [|exact Hle|exact Hstep12].
    simpl. intros; lia.
  - simpl. apply Forall_Forall2_diag, Forall_forall. intros; lia.
Qed.

Lemma list_find_same_place {A B} (P : A -> Prop)
    `{forall x, Decision (P x)} (f : A -> B) (l l' : list A) :
  (forall x y, f x = f y -> P x -> P y) ->
  f <$> l' = f <$> l ->
  fst <$> list_find P l' = fst <$> list_find P l.
Proof.
  intros HP. revert l'. induction l as [|x l IH]; intros [|y l'] Heq;
    try done.
  injection Heq as Hxy Hl. cbn [list_find].
  destruct (decide (P y)) as [Hy|Hy], (decide (P x)) as [Hx|Hx]; try done.
  - destruct Hx. by apply (HP y x).
  - destruct Hy. by apply (HP x y).
  - specialize (IH l' Hl).
    destruct (list_find P l') as [[i a]|], (list_find P l) as [[j b]|];
      simpl in *; congruence.
Qed.

Lemma get_option_declaration impl impl' name :
  declaration <$> m_options impl' = declaration <$> m_options impl ->
  fst <$> get_option impl' name = fst <$> get_option impl name.
Proof.
  intros Hdecl. unfold get_option.
  apply (list_find_same_place _ declaration); [|done].
  intros x y [= Hname _ _ _ _ _ _]. congruence.
Qed.

Lemma get_option_short_declaration impl impl' c :
  declaration <$> m_options impl' = declaration <$> m_options impl ->
  fst <$> get_option_short impl' c = fst <$> get_option_short impl c.
Proof.
  intros Hdecl. unfold get_option_short.
  apply (list_find_same_place _ declaration); [|done].
  intros x y [= _ _ Hshort _ _ _ _]. congruence.
Qed.

(** X2. A name, or a short name, resolves to the same place of the
    registry after a parse as before it. *)
Theorem parse_keeps_lookups impl argv ignore_unknown ec name c :
  fst <$> get_option (fst (parse impl argv ignore_unknown ec)) name =
    fst <$> get_option impl name /\
  fst <$> get_option_short (fst (parse impl argv ignore_unknown ec)) c =
    fst <$> get_option_short impl c.
Proof.
  pose proof (parse_loop_declarations ignore_unknown options (drop 1 argv)
                impl ec) as Hdecl.
  fold (parse impl argv ignore_unknown ec) in Hdecl.
  split.
  - by apply get_option_declaration.
  - by apply get_option_short_declaration.
Qed.

(** X3. A name that is not declared stays unknown whatever is parsed:
    its [count] is 0, [has] is false and [get<T>] throws
    [unknown_option]. *)
Theorem undeclared_after_parse T impl argv ignore_unknown ec name :
  get_option impl name = None ->
  count (fst (parse impl argv ignore_unknown ec)) name = 0 /\
  has (fst (parse impl argv ignore_unknown ec)) name = false /\
  get T (fst (parse impl argv ignore_unknown ec)) name =
    throws_system_error (make_error_code unknown_option) name.
Proof.
  intros Hnone.
  pose proof (parse_loop_declarations ignore_unknown options (drop 1 argv)
                impl ec) as Hdecl.
  fold (parse impl argv ignore_unknown ec) in Hdecl.
  pose proof (get_option_declaration _ _ name Hdecl) as Hname.
  rewrite Hnone in Hname. unfold count, has, get.
  by destruct (get_option (fst (parse impl argv ignore_unknown ec)) name).
Qed.

(** X4. Seen through the facade a parse only adds: [count] of a name
    never gets smaller, and [has] never turns from true to false. *)
Theorem count_and_has_grow impl argv ignore_unknown ec name :
  count impl name <= count (fst (parse impl argv ignore_unknown ec)) name /\
  implb (has impl name)
    (has (fst (parse impl argv ignore_unknown ec)) name) = true.
Proof.
  pose proof (parse_loop_declarations ignore_unknown options (drop 1 argv)
                impl ec) as Hdecl.
  pose proof (parse_loop_counts_grow ignore_unknown options (drop 1 argv)
                impl ec) as Hseen.
  fold (parse impl argv ignore_unknown ec) in Hdecl, Hseen.
  pose proof (get_option_declaration _ _ name Hdecl) as Hname.
  unfold count, has.
  destruct (get_option impl name) as [[p o]|] eqn:Hfind;
    destruct (get_option (fst (parse impl argv ignore_unknown ec)) name)
      as [[p' o']|] eqn:Hfind'; simpl in Hname; try discriminate;
    [|split; [lia|done]].
  injection Hname as ->.
  apply get_option_lookup in Hfind, Hfind'.
  pose proof (Forall2_lookup_lr _ _ _ _ _ _ Hseen Hfind Hfind') as Hle.
  assert (Hsame : declaration o' = declaration o).
  { apply (f_equal (fun l => l !! p)) in Hdecl.
    rewrite !list_lookup_fmap, Hfind, Hfind' in Hdecl. simpl in Hdecl.
    congruence. }
  injection Hsame as _ _ _ _ Hdefault _ _. simpl in Hle.
  split; [done|]. rewrite Hdefault.
  destruct (m_has_default (base o)); [by rewrite !orb_true_r|].
  rewrite !orb_false_r.
  destruct (Z.ltb_spec 0 (m_seen (base o))); [|done].
  destruct (Z.ltb_spec 0 (m_seen (base o'))); [done|lia].
Qed.

(** ** The errors of a parse *)

Lemma set_value_ec o argument ec :
  snd (set_value o argument ec) = ec \/
  exists e, snd (set_value o argument ec) = generic_code e.
Proof.
  destruct o as [b|vt b v]; simpl; [by left|].
  destruct vt as [ty| |]; simpl; [|by left..].
  destruct (from_chars ty argument indeterminate) as [[e|] value]; simpl;
    eauto.
Qed.

Lemma parse_loop_error_kinds ignore_unknown state args impl :
  snd (parse_loop ignore_unknown state args impl no_error) <>
    make_error_code option_not_specified /\
  (ignore_unknown = true ->
   snd (parse_loop ignore_unknown state args impl no_error) <>
     make_error_code unknown_option).
Proof.
  pose proof (parse_loop_steps ignore_unknown state args impl no_error)
    as Hsteps.
  apply (parse_steps_invariant ignore_unknown
           (fun s => snd s <> make_error_code option_not_specified /\
                     (ignore_unknown = true ->
                      snd s <> make_error_code unknown_option)) _ _)
    in Hsteps; [done| |done].
  intros [impl1 ec1] [impl2 ec2] Hstep [Hspec Hunknown]; simpl in *.
  unfold make_error_code in *.
  inversion Hstep; subst; try done.
  destruct (set_value_ec opt arg ec1) as [->|[e ->]]; done.
Qed.

(** X5. A parse that starts without an error never ends in
    [option_not_specified], and when unknown options are tolerated it
    never ends in [unknown_option]. *)
Theorem parse_error_kinds impl argv ignore_unknown :
  snd (parse impl argv ignore_unknown no_error) <>
    make_error_code option_not_specified /\
  snd (parse impl argv true no_error) <> make_error_code unknown_option.
Proof.
  split.
  - apply parse_loop_error_kinds.
  - by apply parse_loop_error_kinds.
Qed.

Lemma set_value_not_arithmetic o argument ec :
  not_arithmetic o -> snd (set_value o argument ec) = ec.
Proof.
  intros Ho. destruct o as [b|[ty| |] b v]; simpl; try done.
  by destruct (Ho ty).
Qed.

(** X6. Over a registry without an arithmetic option a parse that starts
    without an error never ends in a conversion error (a code of the
    generic category): text and path values are taken as they come. *)
Theorem parse_no_conversion_error impl argv ignore_unknown e :
  Forall not_arithmetic (m_options impl) ->
  snd (parse impl argv ignore_unknown no_error) <> generic_code e.
Proof.
  intros Himpl. unfold parse.
  pose proof (parse_loop_steps ignore_unknown options (drop 1 argv) impl
                no_error) as Hsteps.
  apply (parse_steps_invariant ignore_unknown
           (fun s => Forall not_arithmetic (m_options (fst s)) /\
                     snd s <> generic_code e) _ _)
    in Hsteps; [by destruct Hsteps| |done].
  intros [impl1 ec1] [impl2 ec2] Hstep [Hreg Hec]; simpl in *.
  inversion Hstep; subst; try done.
  - split; [|done]. apply Forall_insert; [done|].
    match goal with Hp : m_options _ !! _ = Some _ |- _ =>
      pose proof (Forall_lookup_1 _ _ _ _ Hreg Hp) as Hopt end.
    intros ty. specialize (Hopt ty). by destruct opt.
  - match goal with Hp : m_options _ !! _ = Some _ |- _ =>
      pose proof (Forall_lookup_1 _ _ _ _ Hreg Hp) as Hopt end.
    rewrite set_value_not_arithmetic by done. split; [|done].
    apply Forall_insert; [done|]. intros ty. specialize (Hopt ty).
    destruct opt as [b|vt b v]; simpl in *; [done|].
    by destruct (traits_set_value vt arg ec1).
Qed.

(** ** Defaults *)

Lemma constructed_default_present o : constructed o -> default_present o.
Proof.
  unfold default_present.
  destruct 1; simpl; try done;
    unfold option_void_ctor, option_ctor, option_base_ctor;
    repeat case_match; done.
Qed.

Lemma parse_loop_default_present ignore_unknown state args impl ec :
  Forall default_present (m_options impl) ->
  Forall default_present
    (m_options (fst (parse_loop ignore_unknown state args impl ec))).
Proof.
  intros Himpl.
  pose proof (parse_loop_steps ignore_unknown state args impl ec) as Hsteps.
  apply (parse_steps_invariant ignore_unknown
           (fun s => Forall default_present (m_options (fst s))) _ _)
    in Hsteps; [done| |done].
  intros [impl1 ec1] [impl2 ec2] Hstep Hreg; simpl in *.
  inversion Hstep; subst; try done.
  - apply Forall_insert; [done|].
    match goal with Hp : m_options _ !! _ = Some _ |- _ =>
      pose proof (Forall_lookup_1 _ _ _ _ Hreg Hp) as Hopt end.
    by destruct opt.
  - apply Forall_insert; [done|].
    destruct opt as [b|vt b v]; simpl in *.
    + match goal with Hp : m_options _ !! _ = Some _ |- _ =>
        by pose proof (Forall_lookup_1 _ _ _ _ Hreg Hp) end.
    + destruct (traits_set_value vt arg ec1). by intros _.
Qed.

Lemma traits_to_string_defined v : traits_to_string v <> undefined_behaviour.
Proof.
  destruct v as [z|p|s]; simpl; try done.
  by destruct (to_chars 32 z) as [[e|] text].
Qed.

(** X7. Over a registry of constructed options, whatever was parsed,
    [get_default_value] never dereferences an empty value slot on an
    entity with [m_has_default] set: the guard of [width] and [write] is
    enough. *)
Theorem default_value_guarded decls argv ignore_unknown ec :
  Forall constructed decls ->
  Forall (fun o => m_has_default (base o) = true ->
                   get_default_value o <> undefined_behaviour)
    (m_options (fst (parse (init decls) argv ignore_unknown ec))).
Proof.
  intros Hdecls.
  assert (Hinit : Forall default_present (m_options (init decls))).
  { unfold init, config_impl_ctor, clone; simpl. rewrite map_id.
    eapply Forall_impl; [exact Hdecls|]. apply constructed_default_present. }
  pose proof (parse_loop_default_present ignore_unknown options
                (drop 1 argv) _ ec Hinit) as Hreg.
  fold (parse (init decls) argv ignore_unknown ec) in Hreg.
  eapply Forall_impl; [exact Hreg|].
  intros o Ho Hdefault. specialize (Ho Hdefault).
  destruct o as [b|vt b [v|]]; simpl in *; [done| |done].
  apply traits_to_string_defined.
Qed.

(** ** Values after a parse without error *)

Lemma constructed_well_kinded o : constructed o -> well_kinded o.
Proof.
  unfold well_kinded.
  destruct 1; simpl; unfold option_base_ctor; by repeat case_match.
Qed.

Lemma constructed_matched_has_value o : constructed o -> matched_has_value o.
Proof.
  unfold matched_has_value.
  destruct 1; simpl; unfold option_base_ctor; repeat case_match; simpl;
    intros; lia || done.
Qed.

Lemma count_flag_settled impl ec ec' p opt :
  values_settled impl ec -> m_options impl !! p = Some opt ->
  m_is_flag (base opt) = true ->
  (is_error ec = true -> is_error ec' = true) ->
  values_settled (store impl p (with_base incr_seen opt)) ec'.
Proof.
  intros [Hkind Hval] Hp Hflag Hec.
  pose proof (Forall_lookup_1 _ _ _ _ Hkind Hp) as Hopt.
  split.
  - apply Forall_insert; [done|]. by destruct opt.
  - destruct Hval as [Herr|Hval]; [left; auto|right].
    apply Forall_insert; [done|].
    unfold matched_has_value. intros Hf. destruct opt; simpl in *; congruence.
Qed.

Lemma count_valued_pending impl ec p opt :
  values_settled impl ec -> m_options impl !! p = Some opt ->
  m_is_flag (base opt) = false ->
  value_pending (store impl p (with_base incr_seen opt)) ec p
    (with_base incr_seen opt).
Proof.
  intros [Hkind Hval] Hp Hflag.
  pose proof (Forall_lookup_1 _ _ _ _ Hkind Hp) as Hopt.
  unfold well_kinded in Hopt. split_and!.
  - by destruct opt.
  - destruct opt; simpl in *; congruence.
  - apply Forall_insert; [done|]. by destruct opt.
  - destruct Hval as [Herr|Hval]; [by left|right].
    intros o' Ho'. simpl. rewrite list_insert_insert_eq.
    apply Forall_insert; [done|]. by intros _ _.
Qed.

Lemma long_option_values ignore_unknown arg impl ec :
  values_settled impl ec ->
  match long_option ignore_unknown arg impl ec with
  | scan_continue impl' ec' => values_settled impl' ec'
  | scan_argument impl' ec' p opt _ => value_pending impl' ec' p opt
  end.
Proof.
  intros Himpl. unfold long_option.
  destruct (index 0 "=" arg) as [q|];
    (match goal with |- context [get_option impl ?n] =>
       destruct (get_option impl n) as [[p opt]|] eqn:Hfind end;
     [apply get_option_lookup in Hfind|
      destruct ignore_unknown; [done|];
      destruct Himpl; split; [done|by left]]);
    (destruct (m_is_flag (base opt)) eqn:Hflag;
     [|by apply count_valued_pending]);
    (eapply count_flag_settled; [done..|]); by case_bool_decide.
Qed.

Lemma short_options_values ignore_unknown arg impl ec :
  values_settled impl ec ->
  match short_options ignore_unknown arg impl ec with
  | scan_continue impl' ec' => values_settled impl' ec'
  | scan_argument impl' ec' p opt _ => value_pending impl' ec' p opt
  end.
Proof.
  revert impl ec. induction arg as [|c arg IH]; intros impl ec Himpl; simpl.
  - done.
  - destruct (is_error ec); [done|].
    destruct (get_option_short impl c) as [[p opt]|] eqn:Hfind.
    + apply get_option_short_lookup in Hfind.
      replace (m_is_flag (base (with_base incr_seen opt)))
        with (m_is_flag (base opt)) by by destruct opt.
      destruct (m_is_flag (base opt)) eqn:Hflag.
      * apply IH. by eapply count_flag_settled.
      * by apply count_valued_pending.
    + apply IH. destruct ignore_unknown; [done|].
      destruct Himpl. split; [done|by left].
Qed.

Lemma set_value_keeps_error o argument ec :
  is_error ec = true -> is_error (snd (set_value o argument ec)) = true.
Proof.
  intros Hec. by destruct (set_value_ec o argument ec) as [->|[e ->]].
Qed.

Lemma set_value_slot o argument ec :
  dynamic_type o <> None ->
  value_slot (fst (set_value o argument ec)) <> None.
Proof.
  destruct o as [b|vt b v]; simpl; [done|].
  by destruct (traits_set_value vt argument ec).
Qed.

Lemma assign_argument_values impl ec p opt arg :
  value_pending impl ec p opt ->
  values_settled (fst (assign_argument impl ec p opt arg))
    (snd (assign_argument impl ec p opt arg)).
Proof.
  intros (Hopt & Htype & Hkind & Hval). unfold assign_argument.
  case_bool_decide; simpl; [split; [done|by left]|].
  pose proof (set_value_keeps_error opt arg ec) as Herr.
  pose proof (set_value_slot opt arg ec Htype) as Hslot.
  pose proof (set_value_declaration opt arg ec) as Hdecl.
  destruct (set_value opt arg ec) as [opt' ec']; simpl in *. split.
  - apply Forall_insert; [done|]. unfold well_kinded in *.
    injection Hdecl as _ _ _ -> _ _ ->. done.
  - destruct Hval as [Hec|Hval]; [left; by apply Herr|right; by apply Hval].
Qed.

Lemma parse_loop_values ignore_unknown state args impl ec :
  values_settled impl ec ->
  values_settled (fst (parse_loop ignore_unknown state args impl ec))
    (snd (parse_loop ignore_unknown state args impl ec)).
Proof.
  apply (parse_loop_invariant ignore_unknown values_settled value_pending).
  - intros impl' ec' arg Himpl. exact Himpl.
  - intros arg impl' ec' _ Himpl. unfold scan_token.
    destruct (after_dash arg).
    + by apply long_option_values.
    + by apply short_options_values.
  - intros impl' ec' p opt arg. apply assign_argument_values.
Qed.

Lemma store_keeps_slots decls impl p o :
  keeps_declared_slots decls impl -> 1 <= m_seen (base o) ->
  keeps_declared_slots decls (store impl p o).
Proof.
  unfold keeps_declared_slots, store; simpl. intros Himpl Hseen.
  revert p. induction Himpl as [|d o' decls' opts Hd Hrest IH]; intros p.
  - done.
  - destruct p as [|p]; simpl.
    + constructor; [|done]. split; [lia|intros; lia].
    + constructor; [done|apply IH].
Qed.

Lemma incr_seen_matched decls impl p opt :
  keeps_declared_slots decls impl -> m_options impl !! p = Some opt ->
  1 <= m_seen (base (with_base incr_seen opt)).
Proof.
  intros Himpl Hp.
  destruct (Forall2_lookup_r _ _ _ _ _ Himpl Hp) as (d & _ & Hseen & _).
  destruct opt; simpl in *; lia.
Qed.

Lemma long_option_keeps_slots decls ignore_unknown arg impl ec :
  keeps_declared_slots decls impl ->
  match long_option ignore_unknown arg impl ec with
  | scan_continue impl' _ => keeps_declared_slots decls impl'
  | scan_argument impl' _ _ opt _ =>
      keeps_declared_slots decls impl' /\ 1 <= m_seen (base opt)
  end.
Proof.
  intros Himpl. unfold long_option.
  destruct (index 0 "=" arg) as [q|];
    (match goal with |- context [get_option impl ?n] =>
       destruct (get_option impl n) as [[p opt]|] eqn:Hfind end;
     [|by destruct ignore_unknown]);
    apply get_option_lookup in Hfind;
    pose proof (incr_seen_matched _ _ _ _ Himpl Hfind) as Hseen;
    (destruct (m_is_flag (base opt)); simpl;
     [try case_bool_decide; by apply store_keeps_slots
     |split; [by apply store_keeps_slots|done]]).
Qed.

Lemma short_options_keeps_slots decls ignore_unknown arg impl ec :
  keeps_declared_slots decls impl ->
  match short_options ignore_unknown arg impl ec with
  | scan_continue impl' _ => keeps_declared_slots decls impl'
  | scan_argument impl' _ _ opt _ =>
      keeps_declared_slots decls impl' /\ 1 <= m_seen (base opt)
  end.
Proof.
  revert impl ec. induction arg as [|c arg IH]; intros impl ec Himpl; simpl.
  - done.
  - destruct (is_error ec); [done|].
    destruct (get_option_short impl c) as [[p opt]|] eqn:Hfind; [|by apply IH].
    apply get_option_short_lookup in Hfind.
    pose proof (incr_seen_matched _ _ _ _ Himpl Hfind) as Hseen.
    destruct (m_is_flag _).
    + apply IH. by apply store_keeps_slots.
    + simpl. split; [by apply store_keeps_slots|done].
Qed.

Lemma assign_argument_keeps_slots decls impl ec p opt arg :
  keeps_declared_slots decls impl -> 1 <= m_seen (base opt) ->
  keeps_declared_slots decls (fst (assign_argument impl ec p opt arg)).
Proof.
  intros Himpl Hseen. unfold assign_argument. case_bool_decide; [done|].
  pose proof (set_value_base opt arg ec) as Hbase.
  destruct (set_value opt arg ec) as [opt' ec']; simpl in *.
  apply store_keeps_slots; [done|]. by rewrite Hbase.
Qed.

(** An option that a parse has not matched still holds what its
    declaration gave it. *)
Lemma parse_loop_keeps_slots decls ignore_unknown state args impl ec :
  keeps_declared_slots decls impl ->
  keeps_declared_slots decls
    (fst (parse_loop ignore_unknown state args impl ec)).
Proof.
  apply (parse_loop_invariant ignore_unknown
           (fun impl _ => keeps_declared_slots decls impl)
           (fun impl _ _ opt =>
              keeps_declared_slots decls impl /\ 1 <= m_seen (base opt))).
  - intros impl' ec' arg' Himpl. exact Himpl.
  - intros arg' impl' ec' _ Himpl. unfold scan_token.
    destruct (after_dash arg').
    + by apply long_option_keeps_slots.
    + by apply short_options_keeps_slots.
  - intros impl' ec' p opt arg' [Himpl Hseen].
    by apply assign_argument_keeps_slots.
Qed.

Lemma constructed_keeps_slots decls :
  Forall constructed decls -> keeps_declared_slots decls (init decls).
Proof.
  intros Hdecls. unfold keeps_declared_slots, init, config_impl_ctor, clone.
  simpl. rewrite map_id. apply Forall_Forall2_diag.
  eapply Forall_impl; [exact Hdecls|]. intros o Ho. split; [|done].
  destruct Ho; simpl; unfold option_base_ctor; repeat case_match; simpl; lia.
Qed.

(** X8. After a parse without error over a registry of constructed
    options, when [has] holds of a valued option, the option holds a value
    [v]: its declared default if the parse has not matched it.  With
    [value_type] the type its traits store ([std::string] for an
    [option<const char *>]), [get<value_type>] returns [v]; [get<T>] is the
    [any_cast<T>] of [v] for every [T], so it throws [std::bad_any_cast]
    for any other [T] and never reports [option_not_specified]. *)
Theorem has_promises_get decls argv ignore_unknown name p o vt :
  Forall constructed decls ->
  snd (parse (init decls) argv ignore_unknown no_error) = no_error ->
  get_option (fst (parse (init decls) argv ignore_unknown no_error)) name =
    Some (p, o) ->
  dynamic_type o = Some vt ->
  has (fst (parse (init decls) argv ignore_unknown no_error)) name = true ->
  exists v,
    value_slot o = Some v /\
    (0 < m_seen (base o) \/
     exists d, decls !! p = Some d /\ value_slot d = Some v) /\
    get vt (fst (parse (init decls) argv ignore_unknown no_error)) name =
      returns v /\
    forall T : requested_type,
      get T (fst (parse (init decls) argv ignore_unknown no_error)) name =
      if bool_decide (T = stored_as vt) then returns v
      else throws_bad_any_cast.
Proof.
  intros Hdecls Hok Hfind Htype Hhas.
  assert (Hinit : m_options (init decls) = decls).
  { unfold init, config_impl_ctor, clone; simpl. apply map_id. }
  assert (Hsettled : values_settled (init decls) no_error).
  { split; [|right]; rewrite Hinit;
      (eapply Forall_impl; [exact Hdecls|]).
    - apply constructed_well_kinded.
    - apply constructed_matched_has_value. }
  apply (parse_loop_values ignore_unknown options (drop 1 argv)) in Hsettled.
  fold (parse (init decls) argv ignore_unknown no_error) in Hsettled.
  rewrite Hok in Hsettled. destruct Hsettled as [Hkind [?|Hval]]; [done|].
  assert (Hdefault : Forall default_present
            (m_options (fst (parse (init decls) argv ignore_unknown
                               no_error)))).
  { apply parse_loop_default_present. rewrite Hinit.
    eapply Forall_impl; [exact Hdecls|]. apply constructed_default_present. }
  pose proof (parse_loop_keeps_slots decls ignore_unknown options
                (drop 1 argv) (init decls) no_error
                (constructed_keeps_slots decls Hdecls)) as Hkeeps.
  fold (parse (init decls) argv ignore_unknown no_error) in Hkeeps.
  pose proof (get_option_lookup _ _ _ _ Hfind) as Hp.
  pose proof (Forall_lookup_1 _ _ _ _ Hkind Hp) as Ho_kind.
  pose proof (Forall_lookup_1 _ _ _ _ Hval Hp) as Ho_val.
  pose proof (Forall_lookup_1 _ _ _ _ Hdefault Hp) as Ho_default.
  destruct (Forall2_lookup_r _ _ _ _ _ Hkeeps Hp) as (d & Hd & Hseen & Hkept).
  unfold has in Hhas. unfold get. rewrite Hfind in *.
  unfold well_kinded in Ho_kind. rewrite Htype in Ho_kind.
  assert (Hslot : value_slot o <> None).
  { apply orb_true_iff in Hhas as [Hmatched%Z.ltb_lt|Hdef].
    - by apply Ho_val.
    - by apply Ho_default. }
  destruct o as [b|vt' b [v|]]; simpl in *; try done.
  injection Htype as ->. exists v. split_and!.
  - done.
  - destruct (decide (m_seen b = 0)) as [Hzero|Hpos]; [right|left; lia].
    exists d. split; [done|]. symmetry. by apply Hkept.
  - unfold any_cast. by rewrite bool_decide_eq_true_2.
  - done.
Qed.

(** ** Operands *)

Lemma long_option_operands ignore_unknown arg impl ec :
  match long_option ignore_unknown arg impl ec with
  | scan_continue impl' _ | scan_argument impl' _ _ _ _ =>
      m_operands impl' = m_operands impl
  end.
Proof.
  unfold long_option.
  destruct (index 0 "=" arg);
    (match goal with |- context [get_option impl ?n] =>
       destruct (get_option impl n) as [[p opt]|] end;
     [destruct (m_is_flag (base opt))|]; done).
Qed.

Lemma short_options_operands ignore_unknown arg impl ec :
  match short_options ignore_unknown arg impl ec with
  | scan_continue impl' _ | scan_argument impl' _ _ _ _ =>
      m_operands impl' = m_operands impl
  end.
Proof.
  revert impl ec. induction arg as [|c arg IH]; intros impl ec; simpl.
  - done.
  - destruct (is_error ec); [done|].
    destruct (get_option_short impl c) as [[p opt]|]; [|apply IH].
    destruct (m_is_flag _); [|done].
    specialize (IH (store impl p (with_base incr_seen opt)) ec).
    by destruct (short_options _ _ _ _).
Qed.

Lemma scan_token_operands ignore_unknown arg impl ec :
  match scan_token ignore_unknown arg impl ec with
  | scan_continue impl' _ | scan_argument impl' _ _ _ _ =>
      m_operands impl' = m_operands impl
  end.
Proof.
  unfold scan_token. destruct (after_dash arg).
  - apply long_option_operands.
  - apply short_options_operands.
Qed.

Lemma assign_argument_operands impl ec p opt arg :
  m_operands (fst (assign_argument impl ec p opt arg)) = m_operands impl.
Proof.
  unfold assign_argument. case_bool_decide; [done|].
  by destruct (set_value opt arg ec).
Qed.

Lemma parse_loop_operands_sublist ignore_unknown state args impl ec :
  exists l : list string,
    m_operands (fst (parse_loop ignore_unknown state args impl ec)) =
      (m_operands impl ++ l)%list /\
    (l `sublist_of` args).
Proof.
  remember (length args) as n eqn:Hn.
  assert (Hle : (length args <= n)%nat) by lia. clear Hn.
  revert state args impl ec Hle.
  assert (Hskip : forall (impl impl' : config_impl) arg (rest : list string)
                         (r : config_impl),
    m_operands impl' = m_operands impl ->
    (exists l : list string,
       m_operands r = (m_operands impl' ++ l)%list /\
       (l `sublist_of` rest)) ->
    exists l : list string,
      m_operands r = (m_operands impl ++ l)%list /\
      (l `sublist_of` (arg :: rest))).
  { intros ????? Heq (l & Hl & Hsub). exists l. rewrite <- Heq.
    split; [done|by apply sublist_cons]. }
  assert (Htake : forall (impl : config_impl) arg (rest : list string)
                         (r : config_impl),
    (exists l : list string,
       m_operands r = (m_operands (emplace_operand impl arg) ++ l)%list /\
       (l `sublist_of` rest)) ->
    exists l : list string,
      m_operands r = (m_operands impl ++ l)%list /\
      (l `sublist_of` (arg :: rest))).
  { intros ???? (l & Hl & Hsub). exists (arg :: l). simpl in Hl.
    rewrite <- app_assoc in Hl. split; [done|by apply sublist_skip]. }
  induction n as [|n IH]; intros state args impl ec Hle;
    destruct args as [|arg rest]; simpl in *;
    try (exists []; split; [by rewrite app_nil_r|apply sublist_nil_l]);
    [lia|].
  destruct (is_error ec);
    [exists []; split; [by rewrite app_nil_r|apply sublist_nil_l]|].
  assert (Hrest : (length rest <= n)%nat) by lia.
  destruct state.
  - destruct (after_dash arg) as [arg1|]; [|by apply Htake, IH].
    case_bool_decide; [by eapply Hskip, IH|].
    pose proof (scan_token_operands ignore_unknown arg1 impl ec) as Hscan.
    destruct (scan_token ignore_unknown arg1 impl ec)
      as [impl1 ec1|impl1 ec1 p opt opt_arg].
    + by eapply Hskip, IH.
    + case_bool_decide.
      * destruct rest as [|next rest'].
        { exists []. rewrite assign_argument_operands, Hscan.
          split; [by rewrite app_nil_r|apply sublist_nil_l]. }
        pose proof (assign_argument_operands impl1 ec1 p opt next) as Ha.
        destruct (assign_argument impl1 ec1 p opt next) as [impl2 ec2].
        simpl in Ha. eapply Hskip; [exact Hscan|].
        eapply Hskip; [exact Ha|]. apply IH. simpl in *; lia.
      * pose proof (assign_argument_operands impl1 ec1 p opt opt_arg) as Ha.
        destruct (assign_argument impl1 ec1 p opt opt_arg) as [impl2 ec2].
        simpl in Ha. eapply Hskip; [by rewrite Ha|]. by apply IH.
  - by apply Htake, IH.
Qed.

(** X9. A parse keeps the operands it finds and adds, in order, slots of
    the argument vector behind the program name: nothing is dropped,
    reordered or invented. *)
Theorem parse_operands_sublist impl argv ignore_unknown ec :
  exists l : list string,
    get_operands (fst (parse impl argv ignore_unknown ec)) =
      (get_operands impl ++ l)%list /\
    (l `sublist_of` drop 1 argv).
Proof. apply parse_loop_operands_sublist. Qed.

(** ** Spellings of the same command line *)

Lemma after_dash_app s1 s2 :
  after_dash s1 = None -> after_dash s2 = None ->
  after_dash (s1 +:+ s2) = None.
Proof.
  destruct s1 as [|c s1]; [intros _ H; exact H|].
  rewrite string_app_cons. simpl. by case_bool_decide.
Qed.

Lemma after_dash_not_marker s : after_dash s = None -> s <> "-".
Proof. by intros H ->. Qed.

Lemma parse_loop_dash ignore_unknown arg rest impl :
  arg <> "-" ->
  parse_loop ignore_unknown options (String "-" arg :: rest) impl no_error =
  match scan_token ignore_unknown arg impl no_error with
  | scan_continue impl ec => parse_loop ignore_unknown options rest impl ec
  | scan_argument impl ec p opt opt_arg =>
      if bool_decide (opt_arg = "") then
        match rest with
        | next :: rest' =>
            let '(impl, ec) := assign_argument impl ec p opt next in
            parse_loop ignore_unknown options rest' impl ec
        | [] => assign_argument impl ec p opt opt_arg
        end
      else
        let '(impl, ec) := assign_argument impl ec p opt opt_arg in
        parse_loop ignore_unknown options rest impl ec
  end.
Proof.
  intros Harg. cbn [parse_loop is_error after_dash].
  rewrite (bool_decide_eq_true_2 ("-"%char = "-"%char)) by done.
  by rewrite (bool_decide_eq_false_2 (arg = "-")) by done.
Qed.

(** X10. A cluster of flags can be split: when the characters [s1] are
    scanned to their end without error, the token [-s1s2] is parsed like
    the two tokens [-s1] and [-s2]. *)
Theorem cluster_splits ignore_unknown s1 s2 rest impl impl' :
  after_dash s1 = None -> after_dash s2 = None ->
  short_options ignore_unknown s1 impl no_error =
    scan_continue impl' no_error ->
  parse_loop ignore_unknown options (String "-" (s1 +:+ s2) :: rest)
    impl no_error =
  parse_loop ignore_unknown options (String "-" s1 :: String "-" s2 :: rest)
    impl no_error.
Proof.
  intros Hs1 Hs2 Hscan.
  pose proof (after_dash_app s1 s2 Hs1 Hs2) as Hs12.
  rewrite !parse_loop_dash by by apply after_dash_not_marker.
  unfold scan_token. rewrite Hs1, Hs12, Hscan.
  rewrite (short_options_app _ _ _ _ _ _ _ Hscan).
  rewrite parse_loop_dash by by apply after_dash_not_marker.
  unfold scan_token. by rewrite Hs2.
Qed.

Lemma long_option_plain ignore_unknown name impl ec :
  index 0 "=" name = None ->
  long_option ignore_unknown name impl ec =
  match get_option impl name with
  | None =>
      scan_continue impl
        (if ignore_unknown then ec else make_error_code unknown_option)
  | Some (p, opt) =>
      if m_is_flag (base opt) then
        scan_continue (store impl p (with_base incr_seen opt)) ec
      else
        scan_argument (store impl p (with_base incr_seen opt)) ec p
          (with_base incr_seen opt) ""
  end.
Proof.
  intros Hname. unfold long_option. rewrite Hname.
  destruct (get_option impl name) as [[p opt]|]; [|done].
  by rewrite bool_decide_eq_true_2 by done.
Qed.

Lemma scan_token_long ignore_unknown name impl ec :
  scan_token ignore_unknown (String "-" name) impl ec =
  long_option ignore_unknown name impl ec.
Proof.
  unfold scan_token. cbn [after_dash].
  by rewrite (bool_decide_eq_true_2 ("-"%char = "-"%char)) by done.
Qed.

Lemma long_token_not_marker name : name <> "" -> String "-" name <> "-".
Proof. destruct name; [done|]. discriminate. Qed.

(** X11. For a valued option the two spellings of a long option with its
    argument are the same: [--name=value] is parsed like [--name] followed
    by the slot [value], for every value that is not empty. *)
Theorem long_argument_spellings ignore_unknown name value rest impl p opt :
  name <> "" ->
  index 0 "=" name = None ->
  get_option impl name = Some (p, opt) ->
  m_is_flag (base opt) = false ->
  value <> "" ->
  parse_loop ignore_unknown options
    (String "-" (String "-" (name +:+ String "=" value)) :: rest)
    impl no_error =
  parse_loop ignore_unknown options
    (String "-" (String "-" name) :: value :: rest) impl no_error.
Proof.
  intros Hne Hname Hfind Hvalued Hvalue.
  rewrite (inline_argument_used_directly _ _ _ _ _ _ _ Hne Hname Hfind
             Hvalued Hvalue).
  rewrite parse_loop_dash by by apply long_token_not_marker.
  rewrite scan_token_long, long_option_plain by done.
  rewrite Hfind, Hvalued. rewrite bool_decide_eq_true_2 by done.
  unfold assign_argument. rewrite bool_decide_eq_false_2 by done.
  by destruct (set_value (with_base incr_seen opt) value no_error).
Qed.

Lemma after_dash_cluster pre x value :
  after_dash (pre +:+ String x "") = None ->
  after_dash (pre +:+ String x value) = None.
Proof.
  destruct pre as [|c pre].
  - change ("" +:+ String x "") with (String x "").
    change ("" +:+ String x value) with (String x value).
    simpl. by case_bool_decide.
  - rewrite !string_app_cons. simpl. by case_bool_decide.
Qed.

(** X12. The same for a short option at the end of a cluster: [-x]
    with the argument attached, [-xvalue], is parsed like [-x] followed by
    the slot [value], for every value that is not empty. *)
Theorem short_argument_spellings
    ignore_unknown pre x value rest impl impl' p opt :
  after_dash (pre +:+ String x "") = None ->
  short_options ignore_unknown pre impl no_error =
    scan_continue impl' no_error ->
  get_option_short impl' x = Some (p, opt) ->
  m_is_flag (base opt) = false ->
  value <> "" ->
  parse_loop ignore_unknown options
    (String "-" (pre +:+ String x value) :: rest) impl no_error =
  parse_loop ignore_unknown options
    (String "-" (pre +:+ String x "") :: value :: rest) impl no_error.
Proof.
  intros Hdash Hscan Hfind Hvalued Hvalue.
  pose proof (after_dash_cluster pre x value Hdash) as Hdash'.
  rewrite !parse_loop_dash by by apply after_dash_not_marker.
  unfold scan_token. rewrite Hdash, Hdash'.
  rewrite !(short_options_app _ _ _ _ _ _ _ Hscan).
  cbn [short_options is_error]. rewrite Hfind.
  replace (m_is_flag (base (with_base incr_seen opt)))
    with (m_is_flag (base opt)) by by destruct opt.
  rewrite Hvalued. rewrite (bool_decide_eq_false_2 (value = "")) by done.
  rewrite bool_decide_eq_true_2 by done.
  reflexivity.
Qed.

(** X13. A name and a short name that resolve to the same entity are
    interchangeable: the token [--name] is parsed like the token [-c]. *)
Theorem long_and_short_spellings ignore_unknown name c rest impl p opt :
  name <> "" ->
  index 0 "=" name = None ->
  c <> "-"%char ->
  get_option impl name = Some (p, opt) ->
  get_option_short impl c = Some (p, opt) ->
  parse_loop ignore_unknown options (String "-" (String "-" name) :: rest)
    impl no_error =
  parse_loop ignore_unknown options (String "-" (String c "") :: rest)
    impl no_error.
Proof.
  intros Hne Hname Hc Hlong Hshort.
  rewrite parse_loop_dash by by apply long_token_not_marker.
  rewrite parse_loop_dash by (intros [= ->]; done).
  rewrite scan_token_long, long_option_plain by done. rewrite Hlong.
  unfold scan_token. cbn [after_dash].
  rewrite (bool_decide_eq_false_2 (c = "-"%char)) by done.
  cbn [short_options is_error]. rewrite Hshort.
  replace (m_is_flag (base (with_base incr_seen opt)))
    with (m_is_flag (base opt)) by by destruct opt.
  by destruct (m_is_flag (base opt)).
Qed.

(** ** Assigning and reading back *)

Lemma get_option_store impl name p o o' :
  get_option impl name = Some (p, o) ->
  m_name (base o') = name ->
  get_option (store impl p o') name = Some (p, o').
Proof.
  unfold get_option. intros (Hp & Ho & Hfirst)%list_find_Some Hname.
  apply list_find_Some. simpl. split_and!; [|done|].
  - apply list_lookup_insert_eq. by eapply lookup_lt_Some.
  - intros j y Hj Hlt. rewrite list_lookup_insert_ne in Hj by lia.
    by apply (Hfirst j).
Qed.

Lemma parse_then_get_conversion
    ignore_unknown prog name value impl p vt b slot :
  name <> "" ->
  index 0 "=" name = None ->
  get_option impl name = Some (p, option_T vt b slot) ->
  m_is_flag b = false ->
  value <> "" ->
  get vt
    (fst (parse impl
            [prog; String "-" (String "-" (name +:+ String "=" value))]
            ignore_unknown no_error)) name =
    returns (fst (traits_set_value vt value no_error)) /\
  snd (parse impl
         [prog; String "-" (String "-" (name +:+ String "=" value))]
         ignore_unknown no_error) =
    snd (traits_set_value vt value no_error) /\
  count
    (fst (parse impl
            [prog; String "-" (String "-" (name +:+ String "=" value))]
            ignore_unknown no_error)) name = count impl name + 1.
Proof.
  intros Hne Hname Hfind Hvalued Hvalue.
  assert (Hb : m_name b = name).
  { pose proof Hfind as Hf. unfold get_option in Hf.
    by apply list_find_Some in Hf as (_ & Hb & _). }
  unfold parse. cbn [drop].
  rewrite (inline_argument_used_directly _ _ _ _ _ _ _ Hne Hname Hfind
             Hvalued Hvalue).
  cbn [parse_loop with_base set_value].
  destruct (traits_set_value vt value no_error) as [v ec] eqn:Hconv.
  cbn [fst snd].
  assert (Hfind' : get_option
            (store (store impl p (option_T vt (incr_seen b) slot)) p
               (option_T vt (incr_seen b) (Some v))) name =
            Some (p, option_T vt (incr_seen b) (Some v))).
  { eapply get_option_store; [|done].
    eapply get_option_store; [exact Hfind|done]. }
  assert (Hget : get vt
            (store (store impl p (option_T vt (incr_seen b) slot)) p
               (option_T vt (incr_seen b) (Some v))) name = returns v).
  { unfold get. rewrite Hfind'. simpl. unfold any_cast.
    by rewrite bool_decide_eq_true_2. }
  split_and!; [done|done|].
  unfold count. by rewrite Hfind', Hfind.
Qed.

(** X14. Assigning and reading back: after the single token
    [--name=value], with a value that is not empty, a text option
    [name] holds exactly [value]: [get<std::string>] returns it, no error
    is raised, and the count of the option is one more than before,
    whatever value it held. *)
Theorem parse_then_get_text ignore_unknown prog name value impl p b slot :
  name <> "" ->
  index 0 "=" name = None ->
  get_option impl name = Some (p, option_T vt_string b slot) ->
  m_is_flag b = false ->
  value <> "" ->
  get vt_string
    (fst (parse impl
            [prog; String "-" (String "-" (name +:+ String "=" value))]
            ignore_unknown no_error)) name = returns (v_string value) /\
  snd (parse impl
         [prog; String "-" (String "-" (name +:+ String "=" value))]
         ignore_unknown no_error) = no_error /\
  count
    (fst (parse impl
            [prog; String "-" (String "-" (name +:+ String "=" value))]
            ignore_unknown no_error)) name = count impl name + 1.
Proof.
  intros Hne Hname Hfind Hvalued Hvalue.
  apply (parse_then_get_conversion ignore_unknown prog name value impl p
           vt_string b slot); done.
Qed.


Lemma traits_set_value_text vt argument ec :
  argument <> "" ->
  fst (traits_set_value vt argument ec) <> v_string "" /\
  fst (traits_set_value vt argument ec) <> v_path "".
Proof.
  intros Harg. destruct vt as [ty| |]; simpl.
  - by destruct (from_chars ty argument indeterminate).
  - split; [done|]. by intros [= ->].
  - split; [|done]. by intros [= ->].
Qed.

(** X15. A parse never assigns an empty text or path: when no entity
    holds one before the parse, none holds one after it. *)
Theorem parse_never_assigns_empty impl argv ignore_unknown ec :
  Forall no_empty_text (m_options impl) ->
  Forall no_empty_text
    (m_options (fst (parse impl argv ignore_unknown ec))).
Proof.
  intros Himpl. unfold parse.
  pose proof (parse_loop_steps ignore_unknown options (drop 1 argv) impl ec)
    as Hsteps.
  apply (parse_steps_invariant ignore_unknown
           (fun s => Forall no_empty_text (m_options (fst s))) _ _)
    in Hsteps; [done| |done].
  intros [impl1 ec1] [impl2 ec2] Hstep Hreg; simpl in *.
  inversion Hstep; subst; try done.
  - apply Forall_insert; [done|].
    match goal with Hp : m_options _ !! _ = Some _ |- _ =>
      pose proof (Forall_lookup_1 _ _ _ _ Hreg Hp) as Hopt end.
    by destruct opt.
  - apply Forall_insert; [done|].
    match goal with Hp : m_options _ !! _ = Some _ |- _ =>
      pose proof (Forall_lookup_1 _ _ _ _ Hreg Hp) as Hopt end.
    destruct opt as [b|vt b v]; simpl; [done|].
    match goal with Ha : arg <> "" |- _ =>
      pose proof (traits_set_value_text vt arg ec1 Ha) as [Hs Hp'] end.
    destruct (traits_set_value vt arg ec1) as [v' ec']; simpl in *.
    split; intros [= Heq]; [by apply Hs|by apply Hp'].
Qed.

(** X16. A valued option without an argument: when [--name] is the last
    token, or when the slot behind it is the empty string, the option is
    counted, its value is left alone, the parse ends with
    [missing_argument_for_option], and what follows the empty slot is not
    read. *)
Theorem missing_argument_edges ignore_unknown name rest impl p opt :
  name <> "" ->
  index 0 "=" name = None ->
  get_option impl name = Some (p, opt) ->
  m_is_flag (base opt) = false ->
  parse_loop ignore_unknown options [String "-" (String "-" name)]
    impl no_error =
    (store impl p (with_base incr_seen opt),
     make_error_code missing_argument_for_option) /\
  parse_loop ignore_unknown options
    (String "-" (String "-" name) :: "" :: rest) impl no_error =
    (store impl p (with_base incr_seen opt),
     make_error_code missing_argument_for_option).
Proof.
  intros Hne Hname Hfind Hvalued.
  rewrite !parse_loop_dash by by apply long_token_not_marker.
  rewrite scan_token_long, long_option_plain by done.
  rewrite Hfind, Hvalued. rewrite bool_decide_eq_true_2 by done.
  unfold assign_argument. rewrite bool_decide_eq_true_2 by done.
  split; [done|]. by apply parse_loop_error.
Qed.

(** ** Names and short names *)

Lemma string_get_app s t n :
  String.get (String.length s + n) (s +:+ t) = String.get n t.
Proof.
  induction s as [|c s IH]; [done|]. rewrite string_app_cons. done.
Qed.

(** X17. The constructor splits a declared name of the form [long,c]
    into the name [long] and the short name [c], unless [long] is empty:
    the two characters [,c] stay the name, without a short name. *)
Theorem name_with_short_name long c desc hidden :
  m_name (option_base_ctor (long +:+ String "," (String c "")) desc hidden)
    = (if bool_decide (long = "") then String "," (String c "") else long) /\
  m_short_name
    (option_base_ctor (long +:+ String "," (String c "")) desc hidden)
    = (if bool_decide (long = "") then zero else c).
Proof.
  destruct long as [|a long]; [done|].
  rewrite bool_decide_eq_false_2 by done.
  unfold option_base_ctor.
  set (name := String a long +:+ String "," (String c "")).
  assert (Hlen : String.length name = (String.length (String a long) + 2)%nat)
    by (unfold name; by rewrite string_app_length).
  rewrite Hlen.
  replace (String.length (String a long) + 2 - 2)%nat
    with (String.length (String a long) + 0)%nat by lia.
  replace (String.length (String a long) + 2 - 1)%nat
    with (String.length (String a long) + 1)%nat by lia.
  unfold name. rewrite !string_get_app.
  rewrite Nat.add_0_r, substring_app_l.
  replace (String.length (String a long) + 2 =? 1)%nat with false
    by (symmetry; apply Nat.eqb_neq; simpl; lia).
  replace (2 <? String.length (String a long) + 2)%nat with true
    by (symmetry; apply Nat.ltb_lt; simpl; lia).
  done.
Qed.

(** ** Help text *)

Lemma strlen_app s t : strlen (s +:+ t) = strlen s + strlen t.
Proof. unfold strlen. rewrite string_app_length. lia. Qed.

Lemma strlen_cons c s : strlen (String c s) = 1 + strlen s.
Proof. unfold strlen. simpl String.length. lia. Qed.

Lemma strlen_nil : strlen "" = 0.
Proof. done. Qed.

Lemma strlen_nonneg s : 0 <= strlen s.
Proof. unfold strlen. lia. Qed.

Lemma wrap32_add_l a b : wrap32 (wrap32 a + b) = wrap32 (a + b).
Proof. unfold wrap32. by rewrite Zplus_mod_idemp_l. Qed.

Lemma wrap32_small z : 0 <= z < 2 ^ 32 -> wrap32 z = z.
Proof. intros Hz. unfold wrap32. by apply Z.mod_small. Qed.

Lemma write_label_strlen o text w2 :
  write_label o = returns (text, w2) -> w2 = wrap32 (strlen text).
Proof.
  unfold write_label.
  destruct (negb (bool_decide (m_short_name (base o) = zero)));
    [destruct (1 <? strlen (m_name (base o)))|];
    (destruct (negb (m_is_flag (base o)));
     [destruct (m_has_default (base o));
      [destruct (get_default_value o) as [d| | |]; simpl; try done|]|]);
    intros [= <- <-];
    rewrite ?strlen_app, ?strlen_cons, ?strlen_nil;
    repeat (rewrite wrap32_add_l || rewrite <- Z.add_assoc);
    f_equal; lia.
Qed.


(** X18. The counter [w2] of [write] is the number of characters written
    in front of the description (as a [uint32_t]): two spaces, the short
    and the long form of the name, [ arg] and the default. *)
Theorem write_label_counts o text w2 :
  write_label o = returns (text, w2) -> w2 = wrap32 (strlen text).
Proof. apply write_label_strlen. Qed.

Lemma width_label_gap o w text w2 :
  option_width o = returns w ->
  write_label o = returns (text, w2) ->
  strlen text + 8 < 2 ^ 32 ->
  w2 = strlen text /\ w2 + 2 <= w <= w2 + 4.
Proof.
  intros Hw Hl Hsmall.
  pose proof (strlen_nonneg text) as Htext.
  pose proof (write_label_strlen _ _ _ Hl) as Hw2.
  rewrite wrap32_small in Hw2 by lia. subst w2. split; [done|].
  revert Hw Hl. unfold option_width, write_label.
  pose proof (strlen_nonneg (m_name (base o))) as Hn.
  destruct (negb (bool_decide (m_short_name (base o) = zero)));
    (destruct (negb (m_is_flag (base o)));
     [destruct (m_has_default (base o));
      [destruct (get_default_value o) as [d| | |]; simpl bind; try done;
       pose proof (strlen_nonneg d)|]|]);
    destruct (Z.ltb_spec 1 (strlen (m_name (base o))));
    intros Hw [= Ht _]; subst text;
    rewrite ?strlen_app, ?strlen_cons, ?strlen_nil in Hsmall;
    rewrite (wrap32_small (strlen (m_name (base o)))) in Hw by lia;
    destruct (Z.leb_spec (strlen (m_name (base o))) 1); try lia;
    repeat (rewrite wrap32_add_l in Hw || rewrite <- Z.add_assoc in Hw);
    rewrite ?wrap32_small in Hw by lia;
    injection Hw as <-;
    rewrite ?strlen_app, ?strlen_cons, ?strlen_nil; lia.
Qed.

(** X19. As long as the counters do not wrap around, [width()] covers
    what [write] puts in front of the description, with two to four
    columns to spare. *)
Theorem width_covers_label o w text w2 :
  option_width o = returns w ->
  write_label o = returns (text, w2) ->
  strlen text + 8 < 2 ^ 32 ->
  w2 + 2 <= w <= w2 + 4.
Proof. intros Hw Hl Hsmall. by eapply width_label_gap. Qed.

(** X20. Written with a width that is at least its own [width()], an
    option never takes the line break: the first line of the description
    follows on the line of the name, padded to the column [width], and
    every further line starts at that column too. *)
Theorem write_aligned w o w0 text w2 :
  option_width o = returns w0 ->
  write_label o = returns (text, w2) ->
  strlen text + 8 < 2 ^ 32 ->
  w0 <= w < 2 ^ 32 ->
  write w o =
  returns
    (text +:+
     write_lines (w - strlen text) w (word_wrapper (m_desc (base o)) w)).
Proof.
  intros Hw0 Hl Hsmall Hw.
  pose proof (width_label_gap _ _ _ _ Hw0 Hl Hsmall) as [-> Hgap].
  pose proof (strlen_nonneg text) as Htext.
  unfold write. rewrite Hl. simpl bind.
  rewrite (wrap32_small (strlen text + 2)) by lia.
  destruct (Z.ltb_spec w (strlen text + 2)); [lia|].
  by rewrite (wrap32_small (w - strlen text)) by lia.
Qed.

Lemma max_width_spec opts options_width m :
  max_width opts options_width = returns m ->
  options_width <= m /\
  Forall (fun o => exists w, option_width o = returns w /\ w <= m) opts.
Proof.
  revert options_width. induction opts as [|o opts IH]; intros a; simpl.
  - intros [= ->]. split; [lia|constructor].
  - destruct (option_width o) as [w| | |] eqn:Hw; simpl; try done.
    destruct (Z.ltb_spec a w); simpl; intros Hm; apply IH in Hm as [Hle Hall].
    + split; [lia|]. constructor; [|done]. exists w. split; [done|lia].
    + split; [lia|]. constructor; [|done]. exists w. split; [done|lia].
Qed.

(** X21. The first loop of [operator<<] returns a width that is at
    least the [width()] of every option of the registry. *)
Theorem max_width_covers impl m :
  max_width (m_options impl) 0 = returns m ->
  Forall (fun o => exists w, option_width o = returns w /\ w <= m)
    (m_options impl).
Proof. intros Hm. by apply max_width_spec in Hm as [_ Hall]. Qed.

Lemma option_width_defined o :
  default_present o -> option_width o <> undefined_behaviour.
Proof.
  unfold default_present, option_width. intros Ho.
  destruct (negb (m_is_flag (base o))); [|done].
  destruct (m_has_default (base o)); [|done].
  specialize (Ho eq_refl).
  destruct o as [b|vt b [v|]]; simpl in *; try done.
  pose proof (traits_to_string_defined v).
  by destruct (traits_to_string v).
Qed.

Lemma write_defined w o :
  default_present o -> write w o <> undefined_behaviour.
Proof.
  unfold default_present, write, write_label. intros Ho.
  destruct (negb (bool_decide (m_short_name (base o) = zero)));
    [destruct (1 <? strlen (m_name (base o)))|];
    (destruct (negb (m_is_flag (base o))); [|simpl; by case_match]);
    (destruct (m_has_default (base o)); [|simpl; by case_match]);
    specialize (Ho eq_refl);
    (destruct o as [b|vt b [v|]]; simpl in *; try done);
    pose proof (traits_to_string_defined v);
    (destruct (traits_to_string v); simpl; try done; by case_match).
Qed.

Lemma max_width_defined opts a :
  Forall default_present opts -> max_width opts a <> undefined_behaviour.
Proof.
  intros Hopts. revert a. induction Hopts as [|o opts Ho _ IH]; intros a;
    simpl; [done|].
  pose proof (option_width_defined o Ho).
  destruct (option_width o); simpl; try done.
  destruct (a <? a0); simpl; apply IH.
Qed.

Lemma write_all_defined w opts :
  Forall default_present opts -> write_all w opts <> undefined_behaviour.
Proof.
  induction 1 as [|o opts Ho _ IH]; simpl; [done|].
  pose proof (write_defined w o Ho).
  destruct (write w o); simpl; try done.
  by destruct (write_all w opts).
Qed.

(** X22. Printing the help text of a registry of constructed options,
    before or after any parse, never dereferences an empty value slot:
    [width] and [write] ask for the text of the default only behind
    [m_has_default]. *)
Theorem print_defined decls argv ignore_unknown ec :
  Forall constructed decls ->
  print (init decls) <> undefined_behaviour /\
  print (fst (parse (init decls) argv ignore_unknown ec)) <>
    undefined_behaviour.
Proof.
  intros Hdecls.
  assert (Hinit : Forall default_present (m_options (init decls))).
  { unfold init, config_impl_ctor, clone; simpl. rewrite map_id.
    eapply Forall_impl; [exact Hdecls|]. apply constructed_default_present. }
  assert (Hprint : forall impl, Forall default_present (m_options impl) ->
            print impl <> undefined_behaviour).
  { intros impl Himpl. unfold print.
    pose proof (max_width_defined (m_options impl) 0 Himpl).
    destruct (max_width (m_options impl) 0); simpl; try done.
    by apply write_all_defined. }
  split; apply Hprint; [done|].
  by apply parse_loop_default_present.
Qed.

Lemma option_width_hidden h o :
  option_width (with_base (set_hidden h) o) = option_width o.
Proof. by destruct o. Qed.

Lemma write_hidden h w o : write w (with_base (set_hidden h) o) = write w o.
Proof. by destruct o. Qed.

(** X23. The help text does not look at [m_hidden]: an option made with
    [make_hidden_option] is the one [make_option] makes with the mark
    set, and the help text of a registry does not depend on the marks. *)
Theorem print_ignores_hidden T name description h impl :
  make_hidden_option T name description =
    with_base (set_hidden true) (make_option T name description) /\
  print {| m_options := with_base (set_hidden h) <$> m_options impl;
           m_operands := m_operands impl |} = print impl.
Proof.
  split.
  { destruct T; simpl;
      unfold option_ctor, option_void_ctor, option_base_ctor; simpl;
      by repeat case_match. }
  unfold print; simpl.
  assert (Hmax : forall opts a,
    max_width (with_base (set_hidden h) <$> opts) a = max_width opts a).
  { induction opts as [|o opts IH]; intros a; simpl; [done|].
    rewrite option_width_hidden.
    destruct (option_width o); simpl; try done.
    destruct (a <? a0); simpl; apply IH. }
  assert (Hall : forall w opts,
    write_all w (with_base (set_hidden h) <$> opts) = write_all w opts).
  { intros w. induction opts as [|o opts IH]; [done|].
    rewrite fmap_cons. cbn [write_all]. by rewrite write_hidden, IH. }
  rewrite Hmax. destruct (max_width (m_options impl) 0); simpl; [|done..].
  apply Hall.
Qed.

(** ** More edges of the long and the short form *)

Lemma get_option_short_store impl c p o o' :
  get_option_short impl c = Some (p, o) ->
  m_short_name (base o') = c ->
  get_option_short (store impl p o') c = Some (p, o').
Proof.
  unfold get_option_short. intros (Hp & Ho & Hfirst)%list_find_Some Hname.
  apply list_find_Some. simpl. split_and!; [|done|].
  - apply list_lookup_insert_eq. by eapply lookup_lt_Some.
  - intros j y Hj Hlt. rewrite list_lookup_insert_ne in Hj by lia.
    by apply (Hfirst j).
Qed.

Lemma store_store impl p o o' :
  store (store impl p o) p o' = store impl p o'.
Proof. unfold store; simpl. by rewrite list_insert_insert_eq. Qed.

Lemma short_options_repeated ignore_unknown n c impl p opt :
  get_option_short impl c = Some (p, opt) ->
  m_is_flag (base opt) = true ->
  short_options ignore_unknown
    (string_of_list_ascii (replicate (S n) c)) impl no_error =
  scan_continue
    (store impl p (Nat.iter (S n) (with_base incr_seen) opt)) no_error.
Proof.
  revert impl opt. induction n as [|n IH]; intros impl opt Hfind Hflag.
  - simpl. rewrite Hfind.
    replace (m_is_flag (base (with_base incr_seen opt)))
      with (m_is_flag (base opt)) by by destruct opt.
    by rewrite Hflag.
  - change (string_of_list_ascii (replicate (S (S n)) c))
      with (String c (string_of_list_ascii (replicate (S n) c))).
    cbn [short_options is_error]. rewrite Hfind.
    replace (m_is_flag (base (with_base incr_seen opt)))
      with (m_is_flag (base opt)) by by destruct opt.
    rewrite Hflag.
    assert (Hshort : m_short_name (base (with_base incr_seen opt)) = c).
    { pose proof Hfind as Hf. unfold get_option_short in Hf.
      apply list_find_Some in Hf as (_ & Hc & _). by destruct opt. }
    rewrite (IH _ (with_base incr_seen opt)
               (get_option_short_store _ _ _ _ _ Hfind Hshort)
               ltac:(by destruct opt)).
    rewrite store_store. f_equal. f_equal.
    rewrite <- !Nat.iter_succ_r. done.
Qed.

(** X24. Repeating a flag in one cluster counts it as often: the token
    of a dash and [n + 1] times the short name [c] of a flag adds
    [n + 1] to its count and changes nothing else. *)
Theorem flag_repeated_in_cluster ignore_unknown n c impl p opt :
  c <> "-"%char ->
  get_option_short impl c = Some (p, opt) ->
  m_is_flag (base opt) = true ->
  parse_loop ignore_unknown options
    [String "-" (string_of_list_ascii (replicate (S n) c))] impl no_error =
    (store impl p (Nat.iter (S n) (with_base incr_seen) opt), no_error) /\
  m_seen (base (Nat.iter (S n) (with_base incr_seen) opt)) =
    m_seen (base opt) + Z.of_nat (S n).
Proof.
  intros Hc Hfind Hflag. split.
  - rewrite parse_loop_dash.
    2: { simpl. intros [= -> _]. done. }
    unfold scan_token.
    change (string_of_list_ascii (replicate (S n) c))
      with (String c (string_of_list_ascii (replicate n c))) at 1.
    cbn [after_dash]. rewrite (bool_decide_eq_false_2 (c = "-"%char)) by done.
    by rewrite (short_options_repeated _ _ _ _ _ _ Hfind Hflag).
  - generalize (S n). intros m. induction m as [|m IH]; simpl; [lia|].
    replace (m_seen (base (with_base incr_seen
                             (Nat.iter m (with_base incr_seen) opt))))
      with (m_seen (base (Nat.iter m (with_base incr_seen) opt)) + 1)
      by by destruct (Nat.iter m (with_base incr_seen) opt).
    lia.
Qed.

(** X25. An unknown long option, with or without an inline argument:
    when unknown options are reported the parse ends there with
    [unknown_option] and the registry as it was; when they are tolerated
    the token is dropped, inline argument included, and the parse goes
    on. *)
Theorem unknown_long_option name value rest impl :
  name <> "" ->
  index 0 "=" name = None ->
  get_option impl name = None ->
  parse_loop false options (String "-" (String "-" name) :: rest)
    impl no_error = (impl, make_error_code unknown_option) /\
  parse_loop false options
    (String "-" (String "-" (name +:+ String "=" value)) :: rest)
    impl no_error = (impl, make_error_code unknown_option) /\
  parse_loop true options (String "-" (String "-" name) :: rest)
    impl no_error = parse_loop true options rest impl no_error /\
  parse_loop true options
    (String "-" (String "-" (name +:+ String "=" value)) :: rest)
    impl no_error = parse_loop true options rest impl no_error.
Proof.
  intros Hne Hname Hfind.
  assert (Hne' : name +:+ String "=" value <> "").
  { destruct name; [done|]. by rewrite string_app_cons. }
  rewrite !parse_loop_dash by by apply long_token_not_marker.
  rewrite !scan_token_long.
  rewrite !(long_option_plain _ name), !(long_option_inline _ name) by done.
  rewrite Hfind. split_and!; try done; by apply parse_loop_error.
Qed.

(** X26. A flag given an inline argument that is not empty: the parse
    ends there with [option_does_not_accept_argument], what follows is
    not read, and the flag is counted all the same. *)
Theorem flag_with_inline_argument ignore_unknown name value rest impl p opt :
  name <> "" ->
  index 0 "=" name = None ->
  get_option impl name = Some (p, opt) ->
  m_is_flag (base opt) = true ->
  value <> "" ->
  parse_loop ignore_unknown options
    (String "-" (String "-" (name +:+ String "=" value)) :: rest)
    impl no_error =
  (store impl p (with_base incr_seen opt),
   make_error_code option_does_not_accept_argument).
Proof.
  intros Hne Hname Hfind Hflag Hvalue.
  assert (Hne' : name +:+ String "=" value <> "").
  { destruct name; [done|]. by rewrite string_app_cons. }
  rewrite parse_loop_dash by by apply long_token_not_marker.
  rewrite scan_token_long.
  rewrite (flag_rejects_inline_argument _ _ _ _ _ _ Hname Hfind Hflag Hvalue).
  by apply parse_loop_error.
Qed.

End Config.

(** * Instances *)

(** The theorems above at concrete arguments.  The uninitialised local
    is taken to be 0 where a parse is run. *)

(** C2 as stated fails: in [-za] the character [z] is unknown and the flag
    [a] behind it is not counted. *)
Lemma cluster_scan_counterexample :
  snd (parse 0 (init [flag_a]) ["prog"; "-za"] false no_error) =
    make_error_code unknown_option /\
  count (fst (parse 0 (init [flag_a]) ["prog"; "-za"] false no_error)) "a"
    = 0 /\
  count (fst (parse 0 (init [flag_a]) ["prog"; "-za"] false no_error)) "a"
    <> 1.
Proof. split; [reflexivity|]. split; [reflexivity|discriminate]. Qed.

(** The cluster [-azb] against the flags [a] and [b]: [a] is counted, the
    scan ends at [z], and [b] is not counted. *)
Lemma cluster_scan_at_unknown_witness :
  short_options false "a" (init [flag_a; flag_b]) no_error =
    scan_continue
      (store (init [flag_a; flag_b]) 0 (with_base incr_seen flag_a))
      no_error /\
  get_option_short
    (store (init [flag_a; flag_b]) 0 (with_base incr_seen flag_a))
    "z" = None /\
  short_options false ("a" +:+ String "z" "b") (init [flag_a; flag_b])
    no_error =
    scan_continue
      (store (init [flag_a; flag_b]) 0 (with_base incr_seen flag_a))
      (make_error_code unknown_option).
Proof.
  split; [reflexivity|]. split; [reflexivity|].
  apply (cluster_scan_at_unknown false "a" "z" "b"); reflexivity.
Defined.

(** An [int] option that the parse of [["prog"; "-v"]] never matches. *)
Lemma get_never_matched_no_default_witness :
  Forall fresh [port_int; flag_verbose] /\
  get_option
    (fst (parse 0 (init [port_int; flag_verbose]) ["prog"; "-v"] false
            no_error)) "port" = Some (0%nat, port_int) /\
  m_seen (base port_int) = 0 /\
  m_has_default (base port_int) = false /\
  get (vt_arith t_int)
    (fst (parse 0 (init [port_int; flag_verbose]) ["prog"; "-v"] false
            no_error)) "port" =
    throws_system_error (make_error_code option_not_specified) "port".
Proof.
  assert (Hfresh : Forall fresh [port_int; flag_verbose]).
  { repeat constructor; intros; reflexivity. }
  split; [exact Hfresh|]. split; [reflexivity|].
  split; [reflexivity|]. split; [reflexivity|].
  apply (get_never_matched_no_default 0 (vt_arith t_int)
           [port_int; flag_verbose] ["prog"; "-v"] false no_error "port"
           0%nat port_int); [exact Hfresh|reflexivity..].
Defined.

(** The token [-0042] of the type [int]: its text after the round trip is
    [-42]. *)
Lemma numeric_round_trip_witness :
  width t_int <= 64 /\
  valid_numeric_token t_int "-0042" = true /\
  canonical_form "-0042" = "-42" /\
  snd (traits_set_value 0 (vt_arith t_int) "-0042" no_error) = no_error /\
  traits_to_string
    (fst (traits_set_value 0 (vt_arith t_int) "-0042" no_error)) =
    returns (canonical_form "-0042") /\
  (no_redundancy "-0042" = true ->
   traits_to_string
     (fst (traits_set_value 0 (vt_arith t_int) "-0042" no_error)) =
     returns "-0042").
Proof.
  split; [vm_compute; discriminate|]. split; [reflexivity|].
  split; [reflexivity|].
  apply (numeric_round_trip 0 t_int "-0042" no_error);
    [vm_compute; discriminate|reflexivity].
Defined.

(** The example of C9: [--other] becomes the value of [port], and the flag
    [other] is not counted. *)
Lemma next_slot_taken_verbatim_witness :
  "-port" <> "-" /\
  scan_token false "-port" (init [port_string; flag_other]) no_error =
    scan_argument
      (store (init [port_string; flag_other]) 0
         (with_base incr_seen port_string))
      no_error 0%nat (with_base incr_seen port_string) "" /\
  "--other" <> "" /\
  parse_loop 0 false options ["--port"; "--other"]
    (init [port_string; flag_other]) no_error =
  parse_loop 0 false options []
    (store
       (store (init [port_string; flag_other]) 0
          (with_base incr_seen port_string))
       0
       (fst (set_value 0 (with_base incr_seen port_string) "--other"
               no_error)))
    (snd (set_value 0 (with_base incr_seen port_string) "--other"
            no_error)) /\
  get vt_string
    (fst (parse 0 (init [port_string; flag_other])
            ["prog"; "--port"; "--other"] false no_error)) "port" =
    returns (v_string "--other") /\
  count
    (fst (parse 0 (init [port_string; flag_other])
            ["prog"; "--port"; "--other"] false no_error)) "other" = 0.
Proof.
  split; [discriminate|]. split; [reflexivity|]. split; [discriminate|].
  split; [|split; reflexivity].
  apply (next_slot_taken_verbatim 0 false "-port" "--other" []
           (init [port_string; flag_other])
           (store (init [port_string; flag_other]) 0
              (with_base incr_seen port_string))
           no_error 0%nat (with_base incr_seen port_string));
    [discriminate|reflexivity|discriminate].
Defined.

(** The name [nope] against a registry that declares [port] only. *)
Lemma get_undeclared_name_witness :
  Forall (fun o => m_name (base o) <> "nope") (m_options (init [port_int])) /\
  get (vt_arith t_int) (init [port_int]) "nope" =
    throws_system_error (make_error_code unknown_option) "nope" /\
  get (vt_arith t_int) (init [port_int]) "nope" <>
    throws_system_error (make_error_code option_not_specified) "nope".
Proof.
  assert (Habsent : Forall (fun o => m_name (base o) <> "nope")
                      (m_options (init [port_int]))).
  { repeat constructor. discriminate. }
  split; [exact Habsent|].
  apply (get_undeclared_name (vt_arith t_int) (init [port_int]) "nope").
  exact Habsent.
Defined.

(** ** The examples of the specification *)

Example parse_two_flags :
  parse 0 (init [flag_a; flag_b]) ["prog"; "-a"; "-b"] false no_error =
  (store (store (init [flag_a; flag_b]) 0 (with_base incr_seen flag_a)) 1
     (with_base incr_seen flag_b),
   no_error).
Proof. reflexivity. Qed.

Example parse_inline_int :
  get (vt_arith t_int)
    (fst (parse 0 (init [port_int]) ["prog"; "--port=8080"] false no_error))
    "port" = returns (v_arith 8080).
Proof. reflexivity. Qed.

Example parse_cluster_remainder :
  get vt_string
    (fst (parse 0 (init [string_x]) ["prog"; "-xfoo"] false no_error)) "x" =
  returns (v_string "foo").
Proof. reflexivity. Qed.

Example parse_interleaved_operands :
  get_operands
    (fst (parse 0 (init [flag_verbose])
            ["prog"; "file1"; "--verbose"; "file2"] false no_error)) =
    ["file1"; "file2"] /\
  count
    (fst (parse 0 (init [flag_verbose])
            ["prog"; "file1"; "--verbose"; "file2"] false no_error))
    "verbose" = 1.
Proof. split; reflexivity. Qed.

Example parse_unknown_reported :
  parse 0 (init [flag_a]) ["prog"; "--unknown"] false no_error =
  (init [flag_a], make_error_code unknown_option).
Proof. reflexivity. Qed.

Example parse_unknown_tolerated :
  parse 0 (init [flag_a]) ["prog"; "--unknown"] true no_error =
  (init [flag_a], no_error).
Proof. reflexivity. Qed.

Example parse_missing_argument :
  snd (parse 0 (init [port_int]) ["prog"; "--port"] false no_error) =
  make_error_code missing_argument_for_option.
Proof. reflexivity. Qed.

Example canonical_form_examples :
  canonical_form "007" = "7" /\ canonical_form "-000" = "0" /\
  canonical_form "-12" = "-12" /\ canonical_form "0" = "0".
Proof. repeat split; reflexivity. Qed.

(** ** Instances of the further properties *)

Lemma undeclared_after_parse_witness :
  get_option (init [port_int]) "nope" = None /\
  count (fst (parse 0 (init [port_int]) ["prog"; "--port"; "1"] false
                no_error)) "nope" = 0 /\
  has (fst (parse 0 (init [port_int]) ["prog"; "--port"; "1"] false
              no_error)) "nope" = false /\
  get vt_string
    (fst (parse 0 (init [port_int]) ["prog"; "--port"; "1"] false
            no_error)) "nope" =
    throws_system_error (make_error_code unknown_option) "nope".
Proof.
  split; [reflexivity|].
  apply (undeclared_after_parse 0 vt_string (init [port_int])
           ["prog"; "--port"; "1"] false no_error "nope").
  reflexivity.
Defined.

Lemma parse_no_conversion_error_witness :
  Forall not_arithmetic (m_options (init [port_string; flag_other])) /\
  snd (parse 0 (init [port_string; flag_other]) ["prog"; "--port"; "abc"]
         false no_error) <> generic_code invalid_argument.
Proof.
  assert (H : Forall not_arithmetic
                (m_options (init [port_string; flag_other]))).
  { repeat constructor; intros ty; discriminate. }
  split; [exact H|].
  apply (parse_no_conversion_error 0 (init [port_string; flag_other])
           ["prog"; "--port"; "abc"] false invalid_argument H).
Defined.

Lemma default_value_guarded_witness :
  Forall constructed [port_default; flag_a] /\
  Forall (fun o => m_has_default (base o) = true ->
                   get_default_value o <> undefined_behaviour)
    (m_options (fst (parse 0 (init [port_default; flag_a])
                       ["prog"; "-p"; "x"] false no_error))).
Proof.
  assert (H : Forall constructed [port_default; flag_a]).
  { repeat apply Forall_cons_2; [apply constructed_default
                                |apply constructed_void|constructor]. }
  split; [exact H|].
  apply (default_value_guarded 0 [port_default; flag_a] ["prog"; "-p"; "x"]
           false no_error H).
Defined.

Lemma has_promises_get_witness :
  Forall constructed [name_default; flag_verbose] /\
  snd (parse 0 (init [name_default; flag_verbose]) ["prog"; "--verbose"]
         false no_error) = no_error /\
  get_option
    (fst (parse 0 (init [name_default; flag_verbose]) ["prog"; "--verbose"]
            false no_error)) "name" = Some (0%nat, name_default) /\
  dynamic_type name_default = Some vt_string /\
  has (fst (parse 0 (init [name_default; flag_verbose]) ["prog"; "--verbose"]
              false no_error)) "name" = true /\
  exists v,
    value_slot name_default = Some v /\
    (0 < m_seen (base name_default) \/
     exists d,
       [name_default; flag_verbose] !! 0%nat = Some d /\
       value_slot d = Some v) /\
    get vt_string
      (fst (parse 0 (init [name_default; flag_verbose])
              ["prog"; "--verbose"] false no_error)) "name" = returns v /\
    forall T : requested_type,
      get T
        (fst (parse 0 (init [name_default; flag_verbose])
                ["prog"; "--verbose"] false no_error)) "name" =
      if bool_decide (T = stored_as vt_string) then returns v
      else throws_bad_any_cast.
Proof.
  assert (H : Forall constructed [name_default; flag_verbose]).
  { repeat apply Forall_cons_2; [apply constructed_default
                                |apply constructed_void|constructor]. }
  split; [exact H|]. split; [reflexivity|]. split; [reflexivity|].
  split; [reflexivity|]. split; [reflexivity|].
  apply (has_promises_get 0 [name_default; flag_verbose]
           ["prog"; "--verbose"] false "name" 0%nat name_default
           vt_string H); reflexivity.
Defined.

(** [get<T>] wants the very type the option stores: [get<const char *>] on
    an [option<const char *>], which stores a [std::string], and
    [get<long long>] on an [option<long>] throw [std::bad_any_cast]. *)
Example get_wants_stored_type :
  get (not_stored "const char *") (init [name_default]) "name" =
    throws_bad_any_cast /\
  get vt_string (init [name_default]) "name" = returns (v_string "x") /\
  get (vt_arith t_long_long)
    (fst (parse 0 (init [size_long]) ["prog"; "--size=5"] false no_error))
    "size" = throws_bad_any_cast /\
  get (vt_arith t_int64)
    (fst (parse 0 (init [size_long]) ["prog"; "--size=5"] false no_error))
    "size" = returns (v_arith 5).
Proof. by split_and!. Qed.

Lemma cluster_splits_witness :
  after_dash "a" = None /\ after_dash "b" = None /\
  short_options false "a" (init [flag_a; flag_b]) no_error =
    scan_continue
      (store (init [flag_a; flag_b]) 0 (with_base incr_seen flag_a))
      no_error /\
  parse_loop 0 false options [String "-" ("a" +:+ "b")]
    (init [flag_a; flag_b]) no_error =
  parse_loop 0 false options [String "-" "a"; String "-" "b"]
    (init [flag_a; flag_b]) no_error.
Proof.
  split; [reflexivity|]. split; [reflexivity|]. split; [reflexivity|].
  apply (cluster_splits 0 false "a" "b" [] (init [flag_a; flag_b])
           (store (init [flag_a; flag_b]) 0 (with_base incr_seen flag_a)));
    reflexivity.
Defined.

Lemma long_argument_spellings_witness :
  "port" <> "" /\ index 0 "=" "port" = None /\
  get_option (init [port_string; flag_other]) "port" =
    Some (0%nat, port_string) /\
  m_is_flag (base port_string) = false /\
  "8080" <> "" /\
  parse_loop 0 false options
    [String "-" (String "-" ("port" +:+ String "=" "8080")); "file"]
    (init [port_string; flag_other]) no_error =
  parse_loop 0 false options
    [String "-" (String "-" "port"); "8080"; "file"]
    (init [port_string; flag_other]) no_error.
Proof.
  split; [discriminate|]. split; [reflexivity|]. split; [reflexivity|].
  split; [reflexivity|]. split; [discriminate|].
  apply (long_argument_spellings 0 false "port" "8080" ["file"]
           (init [port_string; flag_other]) 0%nat port_string);
    discriminate || reflexivity.
Defined.

Lemma short_argument_spellings_witness :
  after_dash ("a" +:+ String "x" "") = None /\
  short_options false "a" (init [flag_a; string_x]) no_error =
    scan_continue
      (store (init [flag_a; string_x]) 0 (with_base incr_seen flag_a))
      no_error /\
  get_option_short
    (store (init [flag_a; string_x]) 0 (with_base incr_seen flag_a)) "x" =
    Some (1%nat, string_x) /\
  m_is_flag (base string_x) = false /\
  "foo" <> "" /\
  parse_loop 0 false options [String "-" ("a" +:+ String "x" "foo")]
    (init [flag_a; string_x]) no_error =
  parse_loop 0 false options [String "-" ("a" +:+ String "x" ""); "foo"]
    (init [flag_a; string_x]) no_error.
Proof.
  split; [reflexivity|]. split; [reflexivity|]. split; [reflexivity|].
  split; [reflexivity|]. split; [discriminate|].
  apply (short_argument_spellings 0 false "a" "x" "foo" []
           (init [flag_a; string_x])
           (store (init [flag_a; string_x]) 0 (with_base incr_seen flag_a))
           1%nat string_x);
    discriminate || reflexivity.
Defined.

Lemma long_and_short_spellings_witness :
  "verbose" <> "" /\ index 0 "=" "verbose" = None /\
  "v"%char <> "-"%char /\
  get_option (init [flag_verbose]) "verbose" = Some (0%nat, flag_verbose) /\
  get_option_short (init [flag_verbose]) "v" = Some (0%nat, flag_verbose) /\
  parse_loop 0 false options [String "-" (String "-" "verbose"); "file"]
    (init [flag_verbose]) no_error =
  parse_loop 0 false options [String "-" (String "v" ""); "file"]
    (init [flag_verbose]) no_error.
Proof.
  split; [discriminate|]. split; [reflexivity|]. split; [discriminate|].
  split; [reflexivity|]. split; [reflexivity|].
  apply (long_and_short_spellings 0 false "verbose" "v" ["file"]
           (init [flag_verbose]) 0%nat flag_verbose);
    discriminate || reflexivity.
Defined.

Lemma parse_then_get_text_witness :
  "port" <> "" /\ index 0 "=" "port" = None /\
  get_option (init [port_string]) "port" =
    Some (0%nat, option_T vt_string (base port_string) None) /\
  m_is_flag (base port_string) = false /\
  "foo" <> "" /\
  get vt_string
    (fst (parse 0 (init [port_string])
            ["prog"; String "-" (String "-" ("port" +:+ String "=" "foo"))]
            false no_error)) "port" = returns (v_string "foo") /\
  snd (parse 0 (init [port_string])
         ["prog"; String "-" (String "-" ("port" +:+ String "=" "foo"))]
         false no_error) = no_error /\
  count
    (fst (parse 0 (init [port_string])
            ["prog"; String "-" (String "-" ("port" +:+ String "=" "foo"))]
            false no_error)) "port" =
    count (init [port_string]) "port" + 1.
Proof.
  split; [discriminate|]. split; [reflexivity|]. split; [reflexivity|].
  split; [reflexivity|]. split; [discriminate|].
  apply (parse_then_get_text 0 false "prog" "port" "foo" (init [port_string])
           0%nat (base port_string) None);
    discriminate || reflexivity.
Defined.

Lemma parse_never_assigns_empty_witness :
  Forall no_empty_text (m_options (init [port_string; flag_a])) /\
  Forall no_empty_text
    (m_options (fst (parse 0 (init [port_string; flag_a])
                       ["prog"; "--port="; ""] false no_error))).
Proof.
  assert (H : Forall no_empty_text (m_options (init [port_string; flag_a]))).
  { repeat constructor; discriminate. }
  split; [exact H|].
  apply (parse_never_assigns_empty 0 (init [port_string; flag_a])
           ["prog"; "--port="; ""] false no_error H).
Defined.

Lemma missing_argument_edges_witness :
  "port" <> "" /\ index 0 "=" "port" = None /\
  get_option (init [port_int]) "port" = Some (0%nat, port_int) /\
  m_is_flag (base port_int) = false /\
  parse_loop 0 false options [String "-" (String "-" "port")]
    (init [port_int]) no_error =
    (store (init [port_int]) 0 (with_base incr_seen port_int),
     make_error_code missing_argument_for_option) /\
  parse_loop 0 false options [String "-" (String "-" "port"); ""; "file"]
    (init [port_int]) no_error =
    (store (init [port_int]) 0 (with_base incr_seen port_int),
     make_error_code missing_argument_for_option).
Proof.
  split; [discriminate|]. split; [reflexivity|]. split; [reflexivity|].
  split; [reflexivity|].
  apply (missing_argument_edges 0 false "port" ["file"] (init [port_int])
           0%nat port_int);
    discriminate || reflexivity.
Defined.

Lemma write_label_counts_witness :
  write_label port_default = returns ("  -p [ --port ] arg (=8080)", 27) /\
  27 = wrap32 (strlen "  -p [ --port ] arg (=8080)").
Proof.
  split; [reflexivity|].
  apply (write_label_counts port_default). reflexivity.
Defined.

Lemma width_covers_label_witness :
  option_width port_default = returns 29 /\
  write_label port_default = returns ("  -p [ --port ] arg (=8080)", 27) /\
  strlen "  -p [ --port ] arg (=8080)" + 8 < 2 ^ 32 /\
  27 + 2 <= 29 <= 27 + 4.
Proof.
  split; [reflexivity|]. split; [reflexivity|]. split; [reflexivity|].
  apply (width_covers_label port_default 29 "  -p [ --port ] arg (=8080)" 27);
    reflexivity.
Defined.

Lemma write_aligned_witness :
  option_width port_default = returns 29 /\
  write_label port_default = returns ("  -p [ --port ] arg (=8080)", 27) /\
  strlen "  -p [ --port ] arg (=8080)" + 8 < 2 ^ 32 /\
  29 <= 40 < 2 ^ 32 /\
  write one_line 40 port_default =
  returns
    ("  -p [ --port ] arg (=8080)" +:+
     write_lines (40 - strlen "  -p [ --port ] arg (=8080)") 40
       (one_line (m_desc (base port_default)) 40)).
Proof.
  split; [reflexivity|]. split; [reflexivity|]. split; [reflexivity|].
  split; [lia|].
  apply (write_aligned one_line 40 port_default 29
           "  -p [ --port ] arg (=8080)" 27);
    reflexivity || lia.
Defined.

Lemma max_width_covers_witness :
  max_width (m_options (init [flag_verbose; port_default])) 0 = returns 29 /\
  Forall (fun o => exists w, option_width o = returns w /\ w <= 29)
    (m_options (init [flag_verbose; port_default])).
Proof.
  split; [reflexivity|].
  apply (max_width_covers (init [flag_verbose; port_default]) 29).
  reflexivity.
Defined.

Lemma print_defined_witness :
  Forall constructed [port_default; flag_verbose] /\
  print 80 one_line (init [port_default; flag_verbose]) <>
    undefined_behaviour /\
  print 80 one_line
    (fst (parse 0 (init [port_default; flag_verbose]) ["prog"; "-v"] false
            no_error)) <> undefined_behaviour.
Proof.
  assert (H : Forall constructed [port_default; flag_verbose]).
  { repeat apply Forall_cons_2; [apply constructed_default
                                |apply constructed_void|constructor]. }
  split; [exact H|].
  apply (print_defined 0 80 one_line [port_default; flag_verbose]
           ["prog"; "-v"] false no_error H).
Defined.

Lemma flag_repeated_in_cluster_witness :
  "v"%char <> "-"%char /\
  get_option_short (init [flag_verbose]) "v" = Some (0%nat, flag_verbose) /\
  m_is_flag (base flag_verbose) = true /\
  parse_loop 0 false options
    [String "-" (string_of_list_ascii (replicate 3 "v"%char))]
    (init [flag_verbose]) no_error =
    (store (init [flag_verbose]) 0
       (Nat.iter 3 (with_base incr_seen) flag_verbose), no_error) /\
  m_seen (base (Nat.iter 3 (with_base incr_seen) flag_verbose)) =
    m_seen (base flag_verbose) + Z.of_nat 3.
Proof.
  split; [discriminate|]. split; [reflexivity|]. split; [reflexivity|].
  apply (flag_repeated_in_cluster 0 false 2 "v" (init [flag_verbose]) 0%nat
           flag_verbose);
    discriminate || reflexivity.
Defined.

Lemma unknown_long_option_witness :
  "nope" <> "" /\ index 0 "=" "nope" = None /\
  get_option (init [flag_a]) "nope" = None /\
  parse_loop 0 false options [String "-" (String "-" "nope"); "file"]
    (init [flag_a]) no_error =
    (init [flag_a], make_error_code unknown_option) /\
  parse_loop 0 false options
    [String "-" (String "-" ("nope" +:+ String "=" "1")); "file"]
    (init [flag_a]) no_error =
    (init [flag_a], make_error_code unknown_option) /\
  parse_loop 0 true options [String "-" (String "-" "nope"); "file"]
    (init [flag_a]) no_error =
    parse_loop 0 true options ["file"] (init [flag_a]) no_error /\
  parse_loop 0 true options
    [String "-" (String "-" ("nope" +:+ String "=" "1")); "file"]
    (init [flag_a]) no_error =
    parse_loop 0 true options ["file"] (init [flag_a]) no_error.
Proof.
  split; [discriminate|]. split; [reflexivity|]. split; [reflexivity|].
  apply (unknown_long_option 0 "nope" "1" ["file"] (init [flag_a]));
    discriminate || reflexivity.
Defined.

Lemma flag_with_inline_argument_witness :
  "flag" <> "" /\ index 0 "=" "flag" = None /\
  get_option (init [flag_flag]) "flag" = Some (0%nat, flag_flag) /\
  m_is_flag (base flag_flag) = true /\
  "1" <> "" /\
  parse_loop 0 false options
    [String "-" (String "-" ("flag" +:+ String "=" "1")); "file"]
    (init [flag_flag]) no_error =
  (store (init [flag_flag]) 0 (with_base incr_seen flag_flag),
   make_error_code option_does_not_accept_argument).
Proof.
  split; [discriminate|]. split; [reflexivity|]. split; [reflexivity|].
  split; [reflexivity|]. split; [discriminate|].
  apply (flag_with_inline_argument 0 false "flag" "1" ["file"]
           (init [flag_flag]) 0%nat flag_flag);
    discriminate || reflexivity.
Defined.
